(** * The file provider of traefik: provider/file/file.go

    A shallow embedding of the file provider (loading one configuration file
    or a tree of fragment files, keeping the index of watched directories,
    dispatching file-system events) and the properties of its specification.

    Conventions of the embedding.
    - A Go map is a [gmap]; a map that may be [nil] is an [option (gmap _ _)],
      [None] being the nil map.  Reading a nil map finds nothing, ranging over
      it does nothing, assigning into it panics.
    - A slice that may be [nil] is an [option (list _)].
    - A pointer to a [types.Backend], [types.Frontend] or [tls.Configuration]
      is its address, a number; [*types.Configuration] is an
      [option Configuration], [None] being the nil pointer.
    - A function that can panic returns an [option], [None] being the panic.
    - The order in which [range] visits a map is not fixed by Go: it is taken
      from a [GoRuntime], which may enumerate a map in any order.
    - Log lines and the messages sent on the configuration channel are
      collected in lists, oldest first. *)

From Stdlib Require Import Ascii.
From stdpp Require Import gmap strings list fin_maps.

Local Open Scope string_scope.
Local Open Scope list_scope.

(** ** Go's string and path functions used by the provider *)

(** [strings.HasSuffix]:
    [len(s) >= len(suffix) && s[len(s)-len(suffix):] == suffix]. *)
Definition strings_HasSuffix (s suffix : string) : bool :=
  (String.length suffix <=? String.length s)%nat
  && bool_decide
       (String.substring (String.length s - String.length suffix)
          (String.length suffix) s = suffix).

(** [strings.TrimSuffix]: [s] without the suffix when it has it. *)
Definition strings_TrimSuffix (s suffix : string) : string :=
  if strings_HasSuffix s suffix
  then String.substring 0 (String.length s - String.length suffix) s
  else s.

(** The scan of [filepath.Split]: [i] goes down from [len(path)-1] while
    [path[i]] is not a separator.  [split_index path k] is [i+1] when the
    scan starts at [i = k-1]. *)
Fixpoint split_index (path : string) (k : nat) : nat :=
  match k with
  | O => O
  | S i =>
      match String.get i path with
      | Some c => if bool_decide (c = "/"%char) then S i else split_index path i
      | None => split_index path i
      end
  end.

(** [filepath.Split]: splits immediately after the last separator. *)
Definition filepath_Split (path : string) : string * string :=
  let i := split_index path (String.length path) in
  (String.substring 0 i path, String.substring i (String.length path - i) path).

(** ** Data model *)

(** Addresses of the heap objects the decoder allocates. *)
Abbreviation ptr := N (only parsing).

(** [types.Configuration], the three containers the provider reads. *)
Record Configuration := mkConfiguration {
  Backends : option (gmap string ptr);
  Frontends : option (gmap string ptr);
  TLS : option (list ptr)
}.

(** Error values.  [SysError] is an error of the operating system ([os],
    [ioutil]), [DecodeError] one of the decoder; the others are the errors
    the provider builds itself, named after their message. *)
Inductive error : Type :=
| SysError (op path : string)
| DecodeError (msg : string)
| UnableToStat (rootDir : string) (err : error)
| UnableToListSubDirectories (rootDir : string) (err : error)
| UnableToListRecursively (rootDir : string) (err : error)
| ErrorReadingConfigurationFile (filename : string) (err : error)
| InvalidFilename (filename : string)
| UnableToReadDirectory (directory : string) (err : error)
| UnableToLoadSubdirectory (item : string) (err : error)
| ErrorCreatingWatcher (err : error)
| NoFilenameDefined.

#[global] Instance error_eq_dec : EqDecision error.
Proof. solve_decision. Defined.

(** Log lines, named after level and message. *)
Inductive logLine : Type :=
| WarnBackendAlreadyConfigured (backendName : string)
| WarnFrontendAlreadyConfigured (frontendName : string)
| WarnTLSAlreadyConfigured (conf : ptr)
| DebugUnableToGetModifications (watchItem : string) (err : error)
| ErrorDuringWatcherCallback (err : error)
| ErrorUnableToAddWatcher (dir : string) (err : error)
| ErrorUnableToGetSubDirectories (name : string) (err : error)
| ErrorWatcherEvent (err : error).

#[global] Instance logLine_eq_dec : EqDecision logLine.
Proof. solve_decision. Defined.

(** [types.ConfigMessage]. *)
Record ConfigMessage := mkConfigMessage {
  ProviderName : string;
  Configuration_ : option Configuration
}.

(** ** The file system

    What a path holds: a file, whose content can be read or not, or a
    directory, whose listing can be read or not.  A listing is in the order
    [ioutil.ReadDir] returns it.  The file system is quiescent during one
    call: what [os.Stat], [ioutil.ReadDir] and [ioutil.ReadFile] find at the
    path of a listed entry is that entry. *)
Unset Elimination Schemes.
Inductive node : Type :=
| File (content : option string)
| Dir (listing : option (list (string * node))).
Set Elimination Schemes.

(** The file system seen from the paths the provider is configured with and
    the paths of events: [None] when [os.Stat] fails. *)
Definition filesystem := string → option node.

(** [os.FileInfo.IsDir]. *)
Definition IsDir (n : node) : bool :=
  match n with Dir _ => true | File _ => false end.

(** ** The provider *)

(** [provider.BaseProvider]: the fields and the two decoders the file
    provider uses.  [CreateConfiguration] is called with an empty function
    table and no template objects; both return a configuration and an
    error, as in Go. *)
Record BaseProvider := mkBaseProvider {
  Watch : bool;
  Filename : string;
  CreateConfiguration : string → option Configuration * option error;
  DecodeConfiguration : string → option Configuration * option error
}.

(** [Provider].  [watchedDirectories] is the map [Init] makes. *)
Record Provider := mkProvider {
  base : BaseProvider;
  Directory : string;
  watchedDirectories : gmap string (list string);
  TraefikFile : string
}.

Definition set_watchedDirectories (p : Provider)
    (wd : gmap string (list string)) : Provider :=
  mkProvider (base p) (Directory p) wd (TraefikFile p).

(** [Init]: a fresh, empty map of watched directories. *)
Definition Init (p : Provider) : Provider := set_watchedDirectories p ∅.

(** What Go leaves open: the order of [range] over a map, and the library
    functions [path.Join] and [filepath.Join], whose results the provider
    only uses as names of what it reads. *)
Record GoRuntime := mkGoRuntime {
  range_map : gmap string ptr → list (string * ptr);
  range_map_perm : ∀ m, range_map m ≡ₚ map_to_list m;
  range_set : gset ptr → list ptr;
  range_set_perm : ∀ X, range_set X ≡ₚ elements X;
  path_Join : string → string → string;
  filepath_Join : string → string → string
}.

(** ** getDirectoriesRecursively *)

(** The path of the entry [name] of [rootDir]. *)
Definition subPath (rootDir name : string) : string :=
  strings_TrimSuffix rootDir "/" +:+ "/" +:+ name.

(** The loop over the listing.  [rec] is the recursive call; the result is
    the list [directories] or the error that ends the loop, and the map of
    watched directories as the calls made so far have left it. *)
Fixpoint rangeSubDirectories
    (rec : string → node → gmap string (list string) →
           (list string * option error) * gmap string (list string))
    (rootDir : string) (fileList : list (string * node))
    (directories : list string) (wd : gmap string (list string))
    : (list string + error) * gmap string (list string) :=
  match fileList with
  | [] => (inl directories, wd)
  | item :: rest =>
      if IsDir item.2 then
        match rec (subPath rootDir item.1) item.2 wd with
        | ((_, Some err), wd') => (inr (UnableToListRecursively rootDir err), wd')
        | ((subDir, None), wd') =>
            rangeSubDirectories rec rootDir rest (directories ++ subDir) wd'
        end
      else rangeSubDirectories rec rootDir rest directories wd
  end.

(** The body of [getDirectoriesRecursively] once [os.Stat] has found [n]
    at [rootDir]. *)
Fixpoint getDirectoriesOf (rootDir : string) (n : node)
    (wd : gmap string (list string))
    : (list string * option error) * gmap string (list string) :=
  match n with
  | File _ => (([], None), wd)
  | Dir None =>
      (([], Some (UnableToListSubDirectories rootDir
                    (SysError "readdir" rootDir))), wd)
  | Dir (Some fileList) =>
      match rangeSubDirectories
              (fun d c w => getDirectoriesOf d c w)
              rootDir fileList [rootDir] wd with
      | (inr err, wd') => (([], Some err), wd')
      | (inl directories, wd') =>
          ((directories, None), <[rootDir := directories]> wd')
      end
  end.

(** [getDirectoriesRecursively]: the list, the error, and the provider
    with its map of watched directories updated. *)
Definition getDirectoriesRecursively (p : Provider) (fs : filesystem)
    (rootDir : string) : (list string * option error) * Provider :=
  match fs rootDir with
  | None => (([], Some (UnableToStat rootDir (SysError "stat" rootDir))), p)
  | Some n =>
      let '(r, wd) := getDirectoriesOf rootDir n (watchedDirectories p) in
      (r, set_watchedDirectories p wd)
  end.

(** ** readFile and loadFileConfig *)

(** [ioutil.ReadFile] on what the file system holds at a path. *)
Definition ioutil_ReadFile (filename : string) (found : option node)
    : string * option error :=
  match found with
  | Some (File (Some buf)) => (buf, None)
  | _ => ("", Some (SysError "read" filename))
  end.

Definition readFile (filename : string) (found : option node)
    : string * option error :=
  if (0 <? String.length filename)%nat then
    match ioutil_ReadFile filename found with
    | (_, Some err) => ("", Some err)
    | (buf, None) => (buf, None)
    end
  else ("", Some (InvalidFilename filename)).

(** [&types.Configuration{Frontends: make(...), Backends: make(...)}]:
    two empty maps; the field [TLS] is not set and stays the nil slice. *)
Definition emptyConfiguration : Configuration :=
  mkConfiguration (Some ∅) (Some ∅) None.

(** [configuration == nil || configuration.Backends == nil &&
    configuration.Frontends == nil && configuration.TLS == nil]. *)
Definition nilOrAllAbsent (configuration : option Configuration) : bool :=
  match configuration with
  | None => true
  | Some c =>
      bool_decide (Backends c = None) && bool_decide (Frontends c = None)
      && bool_decide (TLS c = None)
  end.

Definition loadFileConfig (p : Provider) (filename : string)
    (found : option node) (parseTemplate : bool)
    : option Configuration * option error :=
  match readFile filename found with
  | (_, Some err) => (None, Some (ErrorReadingConfigurationFile filename err))
  | (fileContent, None) =>
      let '(configuration, err) :=
        if parseTemplate then CreateConfiguration (base p) fileContent
        else DecodeConfiguration (base p) fileContent in
      match err with
      | Some e => (None, Some e)
      | None =>
          if nilOrAllAbsent configuration
          then (Some emptyConfiguration, None)
          else (configuration, None)
      end
  end.

(** ** loadFileConfigFromDirectory *)

(** [range] over a map that may be nil. *)
Definition range_of (rt : GoRuntime) (m : option (gmap string ptr))
    : list (string * ptr) :=
  match m with None => [] | Some g => range_map rt g end.

(** One turn of the loop over [c.Backends].  The state is the accumulator
    pointer and the log; dereferencing a nil accumulator and assigning into
    a nil map panic. *)
Definition mergeBackend (st : option (option Configuration * list logLine))
    (kv : string * ptr) : option (option Configuration * list logLine) :=
  '(configuration, lg) ← st;
  cfg ← configuration;
  match Backends cfg with
  | Some m =>
      match m !! kv.1 with
      | Some _ => Some (Some cfg, lg ++ [WarnBackendAlreadyConfigured kv.1])
      | None =>
          Some (Some (mkConfiguration (Some (<[kv.1 := kv.2]> m))
                        (Frontends cfg) (TLS cfg)), lg)
      end
  | None => None
  end.

(** One turn of the loop over [c.Frontends]. *)
Definition mergeFrontend (st : option (option Configuration * list logLine))
    (kv : string * ptr) : option (option Configuration * list logLine) :=
  '(configuration, lg) ← st;
  cfg ← configuration;
  match Frontends cfg with
  | Some m =>
      match m !! kv.1 with
      | Some _ => Some (Some cfg, lg ++ [WarnFrontendAlreadyConfigured kv.1])
      | None =>
          Some (Some (mkConfiguration (Backends cfg)
                        (Some (<[kv.1 := kv.2]> m)) (TLS cfg)), lg)
      end
  | None => None
  end.

(** One turn of the loop over [c.TLS]: [configTLSMaps] is keyed by the
    pointer. *)
Definition mergeTLS (st : gset ptr * list logLine) (conf : ptr)
    : gset ptr * list logLine :=
  if bool_decide (conf ∈ st.1)
  then (st.1, st.2 ++ [WarnTLSAlreadyConfigured conf])
  else ({[conf]} ∪ st.1, st.2).

(** The three loops that fold the fragment [c] into the accumulator. *)
Definition mergeFragment (rt : GoRuntime) (c : option Configuration)
    (configuration : option Configuration) (configTLSMaps : gset ptr)
    (lg : list logLine)
    : option ((option Configuration * gset ptr) * list logLine) :=
  c ← c;
  st ← foldl mergeBackend (Some (configuration, lg)) (range_of rt (Backends c));
  st ← foldl mergeFrontend (Some st) (range_of rt (Frontends c));
  let '(tls, lg) := foldl mergeTLS (configTLSMaps, st.2) (default [] (TLS c)) in
  Some ((st.1, tls), lg).

(** One turn of the last loop,
    [configuration.TLS = append(configuration.TLS, conf)]. *)
Definition appendTLS (st : option (option Configuration)) (conf : ptr)
    : option (option Configuration) :=
  configuration ← st;
  cfg ← configuration;
  Some (Some (mkConfiguration (Backends cfg) (Frontends cfg)
                (Some (default [] (TLS cfg) ++ [conf])))).

(** The loop over the listing of [directory].  [rec] is the recursive call.
    The loop ends with [configTLSMaps] or with the error returned. *)
Fixpoint rangeFileList
    (rec : string → node → option Configuration →
           option ((option Configuration * option error) * list logLine))
    (rt : GoRuntime) (p : Provider) (directory : string)
    (fileList : list (string * node)) (configuration : option Configuration)
    (configTLSMaps : gset ptr) (lg : list logLine)
    : option ((option Configuration * (gset ptr + error)) * list logLine) :=
  match fileList with
  | [] => Some ((configuration, inl configTLSMaps), lg)
  | item :: rest =>
      if IsDir item.2 then
        r ← rec (filepath_Join rt directory item.1) item.2 configuration;
        match r.1 with
        | (configuration, Some err) =>
            Some ((configuration, inr (UnableToLoadSubdirectory item.1 err)),
                  lg ++ r.2)
        | (configuration, None) =>
            rangeFileList rec rt p directory rest configuration configTLSMaps
              (lg ++ r.2)
        end
      else if negb (strings_HasSuffix item.1 ".toml")
              && negb (strings_HasSuffix item.1 ".tmpl") then
        rangeFileList rec rt p directory rest configuration configTLSMaps lg
      else
        match loadFileConfig p (path_Join rt directory item.1)
                (Some item.2) true with
        | (_, Some err) => Some ((configuration, inr err), lg)
        | (c, None) =>
            m ← mergeFragment rt c configuration configTLSMaps lg;
            rangeFileList rec rt p directory rest m.1.1 m.1.2 m.2
        end
  end.

(** The body of [loadFileConfigFromDirectory] on what the file system holds
    at [directory]. *)
Fixpoint loadDirectoryOf (rt : GoRuntime) (p : Provider) (directory : string)
    (n : node) (configuration : option Configuration)
    : option ((option Configuration * option error) * list logLine) :=
  match n with
  | Dir (Some fileList) =>
      let configuration :=
        match configuration with
        | None => Some emptyConfiguration
        | Some _ => configuration
        end in
      r ← rangeFileList (fun d c a => loadDirectoryOf rt p d c a)
             rt p directory fileList configuration ∅ [];
      match r.1 with
      | (configuration, inr err) => Some ((configuration, Some err), r.2)
      | (configuration, inl configTLSMaps) =>
          configuration ← foldl appendTLS (Some configuration)
                            (range_set rt configTLSMaps);
          Some ((configuration, None), r.2)
      end
  | _ =>
      Some ((configuration,
             Some (UnableToReadDirectory directory
                     (SysError "readdir" directory))), [])
  end.

Definition loadFileConfigFromDirectory (rt : GoRuntime) (p : Provider)
    (fs : filesystem) (directory : string)
    (configuration : option Configuration)
    : option ((option Configuration * option error) * list logLine) :=
  match fs directory with
  | Some n => loadDirectoryOf rt p directory n configuration
  | None =>
      Some ((configuration,
             Some (UnableToReadDirectory directory
                     (SysError "readdir" directory))), [])
  end.

(** ** BuildConfiguration *)

Definition BuildConfiguration (rt : GoRuntime) (p : Provider) (fs : filesystem)
    : option ((option Configuration * option error) * list logLine) :=
  if (0 <? String.length (Directory p))%nat then
    loadFileConfigFromDirectory rt p fs (Directory p) None
  else if (0 <? String.length (Filename (base p)))%nat then
    Some (loadFileConfig p (Filename (base p)) (fs (Filename (base p))) true, [])
  else if (0 <? String.length (TraefikFile p))%nat then
    Some (loadFileConfig p (TraefikFile p) (fs (TraefikFile p)) false, [])
  else Some ((None, Some NoFilenameDefined), []).

(** ** The reload callback *)

(** What the callback acts on: the messages sent on the configuration
    channel and the log. *)
Record World := mkWorld {
  channel : list ConfigMessage;
  logs : list logLine
}.

Definition sendConfigToChannel (configurationChan : list ConfigMessage)
    (configuration : option Configuration) : list ConfigMessage :=
  configurationChan ++ [mkConfigMessage "file" configuration].

(** The path [watcherCallback] stats. *)
Definition watchItem (p : Provider) : string :=
  if (0 <? String.length (Directory p))%nat then Directory p
  else if (0 <? String.length (Filename (base p)))%nat then Filename (base p)
  else TraefikFile p.

Definition watcherCallback (rt : GoRuntime) (p : Provider) (fs : filesystem)
    (w : World) : option World :=
  match fs (watchItem p) with
  | None =>
      Some (mkWorld (channel w)
              (logs w ++ [DebugUnableToGetModifications (watchItem p)
                            (SysError "stat" (watchItem p))]))
  | Some _ =>
      r ← BuildConfiguration rt p fs;
      match r.1 with
      | (_, Some err) =>
          Some (mkWorld (channel w)
                  (logs w ++ r.2 ++ [ErrorDuringWatcherCallback err]))
      | (configuration, None) =>
          Some (mkWorld (sendConfigToChannel (channel w) configuration)
                  (logs w ++ r.2))
      end
  end.

(** ** addWatcher: the event loop *)

(** [fsnotify.Op], a bit mask. *)
Definition fsnotify_Create : N := 1.
Definition fsnotify_Write : N := 2.
Definition fsnotify_Remove : N := 4.
Definition fsnotify_Rename : N := 8.
Definition fsnotify_Chmod : N := 16.

(** [fsnotify.Event]. *)
Record Event := mkEvent {
  Name : string;
  Op : N
}.

(** The calls made on the [fsnotify.Watcher], oldest first. *)
Inductive watcherCall : Type :=
| WatcherAdd (name : string)
| WatcherRemove (name : string)
| WatcherClose.

(** The state of the goroutine of [addWatcher]. *)
Record loopState := mkLoopState {
  provider : Provider;
  watcher : list watcherCall;
  world : World
}.

(** [for i := len(subDirectories) - 1; i >= 0; i--]: [k] turns are left,
    the next one is for [i = k - 1]. *)
Fixpoint removeSubDirectories (subDirectories : list string) (k : nat)
    (calls : list watcherCall) (wd : gmap string (list string))
    : list watcherCall * gmap string (list string) :=
  match k with
  | O => (calls, wd)
  | S i =>
      match subDirectories !! i with
      | Some d =>
          removeSubDirectories subDirectories i
            (calls ++ [WatcherRemove d]) (delete d wd)
      | None => (calls, wd)
      end
  end.

(** The branch of [evt.Op == fsnotify.Remove || evt.Op == fsnotify.Rename]. *)
Definition onRemoveOrRename (evt : Event) (st : loopState) : loopState :=
  match watchedDirectories (provider st) !! Name evt with
  | Some subDirectories =>
      let '(calls, wd) :=
        removeSubDirectories subDirectories (length subDirectories)
          (watcher st) (watchedDirectories (provider st)) in
      mkLoopState (set_watchedDirectories (provider st) wd) calls (world st)
  | None => st
  end.

(** The branch of [evt.Op == fsnotify.Create]. *)
Definition onCreate (fs : filesystem) (evt : Event) (st : loopState)
    : loopState :=
  match getDirectoriesRecursively (provider st) fs (Name evt) with
  | ((_, Some err), p) =>
      mkLoopState p (watcher st)
        (mkWorld (channel (world st))
           (logs (world st) ++ [ErrorUnableToGetSubDirectories (Name evt) err]))
  | ((dirToAdd, None), p) =>
      mkLoopState p (watcher st ++ (WatcherAdd <$> dirToAdd)) (world st)
  end.

(** The case [evt := <-watcher.Events] of the loop.  [fs] is the file
    system when the event is handled; [callback] is the function
    [addWatcher] was given, a panic of which ends the goroutine. *)
Definition handleEvent (callback : filesystem → World → option World)
    (fs : filesystem) (evt : Event) (st : loopState) : option loopState :=
  if (String.length (Directory (provider st)) =? 0)%nat then
    let filename :=
      if (0 <? String.length (Filename (base (provider st))))%nat
      then Filename (base (provider st))
      else TraefikFile (provider st) in
    let evtFileName := (filepath_Split (Name evt)).2 in
    let confFileName := (filepath_Split filename).2 in
    if bool_decide (evtFileName = confFileName) then
      w ← callback fs (world st);
      Some (mkLoopState (provider st) (watcher st) w)
    else Some st
  else
    let st :=
      if bool_decide (Op evt = fsnotify_Remove)
         || bool_decide (Op evt = fsnotify_Rename)
      then onRemoveOrRename evt st
      else if bool_decide (Op evt = fsnotify_Create) then onCreate fs evt st
      else st in
    w ← callback fs (world st);
    Some (mkLoopState (provider st) (watcher st) w).

(** What [select] receives. *)
Inductive selected : Type :=
| StopReceived
| EventReceived (evt : Event) (fs : filesystem)
| ErrorReceived (err : error).

(** The loop, run over what [select] receives in turn.  When the stop
    signal comes the deferred [watcher.Close] runs and the loop ends. *)
Fixpoint eventLoop (callback : filesystem → World → option World)
    (received : list selected) (st : loopState) : option loopState :=
  match received with
  | [] => Some st
  | StopReceived :: _ =>
      Some (mkLoopState (provider st) (watcher st ++ [WatcherClose]) (world st))
  | EventReceived evt fs :: rest =>
      st' ← handleEvent callback fs evt st;
      eventLoop callback rest st'
  | ErrorReceived err :: rest =>
      eventLoop callback rest
        (mkLoopState (provider st) (watcher st)
           (mkWorld (channel (world st))
              (logs (world st) ++ [ErrorWatcherEvent err])))
  end.

(** [addWatcher]: the watcher is created, which the environment may
    refuse with [newWatcherError]; a watch is added for every directory,
    each failure [addError] reports being logged; then the goroutine runs
    the loop over what it receives.  The result is the error returned and
    the state the goroutine ends in. *)
Definition addWatcher (newWatcherError : option error)
    (addError : string → option error) (p : Provider)
    (directories : list string) (w : World)
    (callback : filesystem → World → option World)
    (received : list selected) : option error * option loopState :=
  match newWatcherError with
  | Some err => (Some (ErrorCreatingWatcher err), Some (mkLoopState p [] w))
  | None =>
      let st :=
        foldl (fun st dir =>
                 mkLoopState (provider st) (watcher st ++ [WatcherAdd dir])
                   (match addError dir with
                    | Some err =>
                        mkWorld (channel (world st))
                          (logs (world st) ++ [ErrorUnableToAddWatcher dir err])
                    | None => world st
                    end))
          (mkLoopState p [] w) directories in
      (None, eventLoop callback received st)
  end.

(** ** Provide *)

(** The error [Provide] returns: the error of the build or of
    [addWatcher] as it is, or the error of the scan wrapped in "unable to
    initialize provider File". *)
Inductive provideError : Type :=
| Returned (err : error)
| UnableToInitializeProviderFile (err : error).

(** The directories [Provide] asks [addWatcher] to watch, or the error of
    the scan, and the provider as the scan leaves it.  [filepath_Dir] is
    the library function [filepath.Dir]. *)
Definition directoriesToWatch (filepath_Dir : string → string)
    (p : Provider) (fs : filesystem) : (list string + error) * Provider :=
  if (0 <? String.length (Directory p))%nat then
    match getDirectoriesRecursively p fs (Directory p) with
    | ((_, Some err), p') => (inr err, p')
    | ((directories, None), p') => (inl directories, p')
    end
  else if (0 <? String.length (Filename (base p)))%nat then
    (inl [filepath_Dir (Filename (base p))], p)
  else (inl [filepath_Dir (TraefikFile p)], p).

(** [Provide].  The goroutine [addWatcher] starts runs beside [Provide]:
    [received] is what it has received and handled when [Provide] sends
    the first configuration.  The result is the error returned and the
    state then: the provider, the calls made on the watcher, the messages
    sent and the log. *)
Definition Provide (rt : GoRuntime) (filepath_Dir : string → string)
    (newWatcherError : option error) (addError : string → option error)
    (p : Provider) (fs : filesystem) (w : World) (received : list selected)
    : option (option provideError * loopState) :=
  r ← BuildConfiguration rt p fs;
  let w := mkWorld (channel w) (logs w ++ r.2) in
  match r.1 with
  | (_, Some err) => Some (Some (Returned err), mkLoopState p [] w)
  | (configuration, None) =>
      if Watch (base p) then
        match directoriesToWatch filepath_Dir p fs with
        | (inr err, p') =>
            Some (Some (UnableToInitializeProviderFile err),
                  mkLoopState p' [] w)
        | (inl directories, p') =>
            match addWatcher newWatcherError addError p' directories w
                    (watcherCallback rt p') received with
            | (Some err, st) => st ← st; Some (Some (Returned err), st)
            | (None, st) =>
                st ← st;
                Some (None,
                      mkLoopState (provider st) (watcher st)
                        (mkWorld
                           (sendConfigToChannel (channel (world st))
                              configuration)
                           (logs (world st))))
            end
        end
      else
        Some (None,
              mkLoopState p []
                (mkWorld (sendConfigToChannel (channel w) configuration)
                   (logs w)))
  end.

(** ** Notions used to state the properties *)

(** What the decoder in use makes of the content. *)
Definition decode (p : Provider) (parseTemplate : bool) (content : string)
    : option Configuration * option error :=
  if parseTemplate then CreateConfiguration (base p) content
  else DecodeConfiguration (base p) content.

(** The file whose base name single-target mode compares events with. *)
Definition trackedFile (p : Provider) : string :=
  if (0 <? String.length (Filename (base p)))%nat then Filename (base p)
  else TraefikFile p.

(** Every list recorded in the map of watched directories starts with its
    key. *)
Definition rootFirst (wd : gmap string (list string)) : Prop :=
  ∀ k l, wd !! k = Some l → head l = Some k.

(** The names of a fragment's map that the accumulator's map already has,
    in the order [range] visits them. *)
Definition collisions (rt : GoRuntime) (acc : gmap string ptr)
    (frag : option (gmap string ptr)) : list string :=
  filter (fun k => is_Some (acc !! k)) (range_of rt frag).*1.

(** The fragment merged into the accumulator: the accumulator's entries,
    and the fragment's entries under the names the accumulator has not. *)
Definition mergedWith (acc : gmap string ptr) (frag : option (gmap string ptr))
    : gmap string ptr :=
  acc ∪ default ∅ frag.

(** How often a line occurs in a log. *)
Definition occurrences (line : logLine) (lg : list logLine) : nat :=
  length (filter (fun l => l = line) lg).

(** What the walk over a directory tree meets, in traversal order: the
    recognised files, with what [loadFileConfig] makes of each, and the
    directories whose listing cannot be read. *)
Inductive visit : Type :=
| Loaded (r : option Configuration * option error)
| Unreadable (directory : string).

(** The file has one of the two recognised extensions. *)
Definition recognised (name : string) : bool :=
  strings_HasSuffix name ".toml" || strings_HasSuffix name ".tmpl".

(** The visits of a listing: a subdirectory contributes its own visits
    where it stands, a file that is not recognised nothing. *)
Fixpoint visitsOfList (rec : string → node → list visit) (rt : GoRuntime)
    (p : Provider) (directory : string) (fileList : list (string * node))
    : list visit :=
  match fileList with
  | [] => []
  | item :: rest =>
      (if IsDir item.2 then rec (filepath_Join rt directory item.1) item.2
       else if recognised item.1 then
         [Loaded (loadFileConfig p (path_Join rt directory item.1)
                    (Some item.2) true)]
       else [])
      ++ visitsOfList rec rt p directory rest
  end.

Fixpoint visits (rt : GoRuntime) (p : Provider) (directory : string)
    (n : node) : list visit :=
  match n with
  | Dir (Some fileList) =>
      visitsOfList (fun d c => visits rt p d c) rt p directory fileList
  | _ => [Unreadable directory]
  end.

(** The error a visit ends the walk with, if any. *)
Definition visitError (v : visit) : option error :=
  match v with
  | Loaded (_, err) => err
  | Unreadable d => Some (UnableToReadDirectory d (SysError "readdir" d))
  end.

(** The fragment a visit loaded, if any. *)
Definition fragmentOf (v : visit) : option Configuration :=
  match v with
  | Loaded (c, None) => c
  | _ => None
  end.

(** The fragments of a directory tree: what its recognised files load to. *)
Definition fragments (rt : GoRuntime) (p : Provider) (directory : string)
    (n : node) : list Configuration :=
  omap fragmentOf (visits rt p directory n).

(** The visits before the first one that fails, and its error. *)
Fixpoint beforeFailure (vs : list visit) : list visit :=
  match vs with
  | [] => []
  | v :: vs =>
      match visitError v with
      | None => v :: beforeFailure vs
      | Some _ => []
      end
  end.

Fixpoint firstFailure (vs : list visit) : option error :=
  match vs with
  | [] => None
  | v :: vs =>
      match visitError v with
      | None => firstFailure vs
      | Some err => Some err
      end
  end.

(** The accumulator's map after the fragments of the visits are merged
    into it one after the other; [field] is [Backends] or [Frontends]. *)
Definition mergedAfter (field : Configuration → option (gmap string ptr))
    (acc : gmap string ptr) (vs : list visit) : gmap string ptr :=
  foldl (fun m v => mergedWith m (fragmentOf v ≫= field)) acc vs.

(** [err] is [e], wrapped once by every directory the walk returns
    through. *)
Inductive wraps (e : error) : error → Prop :=
| wraps_here : wraps e e
| wraps_subdirectory item err :
    wraps e err → wraps e (UnableToLoadSubdirectory item err).

(** The walk ends with the error [err], which is the first failure
    wrapped, or without error when no visit fails. *)
Definition endsWith (vs : list visit) (err : option error) : Prop :=
  match firstFailure vs with
  | None => err = None
  | Some e => ∃ e', err = Some e' ∧ wraps e e'
  end.

(** The walk of [loadFileConfigFromDirectory] below [n], started with an
    accumulator whose maps are not nil: it does not panic, it returns the
    accumulator with the fragments met before the first failure merged in,
    and the error of that failure. *)
Definition walkOf (rt : GoRuntime) (p : Provider) (n : node) : Prop :=
  ∀ directory cfg B F,
    Backends cfg = Some B → Frontends cfg = Some F →
    ∃ cfg' err lg,
      loadDirectoryOf rt p directory n (Some cfg) = Some ((Some cfg', err), lg)
      ∧ Backends cfg' =
          Some (mergedAfter Backends B (beforeFailure (visits rt p directory n)))
      ∧ Frontends cfg' =
          Some (mergedAfter Frontends F (beforeFailure (visits rt p directory n)))
      ∧ endsWith (visits rt p directory n) err.

(** No name is defined by two of the fragments; [field] is [Backends] or
    [Frontends]. *)
Definition distinctNames (field : Configuration → option (gmap string ptr))
    (frags : list Configuration) : Prop :=
  ∀ i j f1 f2 name,
    i ≠ j → frags !! i = Some f1 → frags !! j = Some f2 →
    is_Some (field f1 ≫= (.!! name)) → is_Some (field f2 ≫= (.!! name)) →
    False.

(** The fragments merged one after the other into a map. *)
Definition unionAll (field : Configuration → option (gmap string ptr))
    (acc : gmap string ptr) (frags : list Configuration) : gmap string ptr :=
  foldl (fun m f => mergedWith m (field f)) acc frags.

(** Two runtimes join paths alike; they may range over maps differently. *)
Definition sameJoins (rt rt' : GoRuntime) : Prop :=
  (∀ d name, path_Join rt d name = path_Join rt' d name)
  ∧ (∀ d name, filepath_Join rt d name = filepath_Join rt' d name).

(** Every listing of the tree can be read. *)
Fixpoint listable (n : node) : bool :=
  match n with
  | File _ => true
  | Dir None => false
  | Dir (Some fileList) => forallb (fun item => listable item.2) fileList
  end.

(** The directories below the entries of a listing, with their paths,
    each entry's directories where the entry stands. *)
Fixpoint directoriesOfList (rec : string → node → list (string * node))
    (rootDir : string) (fileList : list (string * node))
    : list (string * node) :=
  match fileList with
  | [] => []
  | item :: rest =>
      rec (subPath rootDir item.1) item.2 ++ directoriesOfList rec rootDir rest
  end.

(** The directories of the tree at [rootDir], with their paths: the root
    first, then the directories of its entries, depth first. *)
Fixpoint directoriesOf (rootDir : string) (n : node)
    : list (string * node) :=
  match n with
  | File _ => []
  | Dir None => [(rootDir, n)]
  | Dir (Some fileList) =>
      (rootDir, n)
      :: directoriesOfList (fun d c => directoriesOf d c) rootDir fileList
  end.

(** The paths of the directories of the tree: the root first, followed by
    every subdirectory, depth first. *)
Definition subtree (rootDir : string) (n : node) : list string :=
  (directoriesOf rootDir n).*1.

(** The string has no separator. *)
Fixpoint noSlash (s : string) : bool :=
  match s with
  | "" => true
  | String c s' => negb (bool_decide (c = "/"%char)) && noSlash s'
  end.

(** The name of a directory entry: not empty, no separator. *)
Definition validName (name : string) : bool :=
  negb (bool_decide (name = "")) && noSlash name.

(** The tree is one a file system can hold: in every listing the names
    are names of entries and no two are the same. *)
Fixpoint wellNamed (n : node) : bool :=
  match n with
  | File _ => true
  | Dir None => true
  | Dir (Some fileList) =>
      bool_decide (NoDup fileList.*1)
      && forallb (fun item => validName item.1 && wellNamed item.2) fileList
  end.

(** The string is empty or starts with a separator. *)
Definition emptyOrSlash (s : string) : Prop :=
  s = "" ∨ ∃ s', s = "/" +:+ s'.

(** What [getDirectoriesOf] does below a node all of whose listings can
    be read: it returns the paths of the directories of the tree; it
    leaves the lists recorded for other paths; and, in a tree a file
    system can hold, it records for every directory of the tree the paths
    of that directory's own tree. *)
Definition recordsTree (n : node) : Prop :=
  ∀ rootDir wd,
    listable n = true →
    ∃ wd',
      getDirectoriesOf rootDir n wd = ((subtree rootDir n, None), wd')
      ∧ (∀ k, k ∉ subtree rootDir n → wd' !! k = wd !! k)
      ∧ (wellNamed n = true →
         ∀ k d, (k, d) ∈ directoriesOf rootDir n →
                wd' !! k = Some (subtree k d)).

(** A message the provider publishes: it is named after the provider and
    carries a configuration. *)
Definition published (m : ConfigMessage) : Prop :=
  ProviderName m = "file" ∧ is_Some (Configuration_ m).

(** The listing without the files that are not recognised; [rec] prunes
    the subdirectories. *)
Fixpoint pruneList (rec : node → node) (fileList : list (string * node))
    : list (string * node) :=
  match fileList with
  | [] => []
  | item :: rest =>
      if IsDir item.2 then (item.1, rec item.2) :: pruneList rec rest
      else if recognised item.1 then item :: pruneList rec rest
      else pruneList rec rest
  end.

(** The tree without the files that are not recognised. *)
Fixpoint prune (n : node) : node :=
  match n with
  | Dir (Some fileList) => Dir (Some (pruneList (fun c => prune c) fileList))
  | _ => n
  end.

(** The part of a path before its base name: empty, or ending with a
    separator. *)
Definition dirPart (s : string) : Prop :=
  s = "" ∨ ∃ d, s = d +:+ "/".






(** ** Concrete instances

    A runtime, two decoders, providers and file systems on which the
    definitions are evaluated. *)

(** A runtime that ranges over maps in the order of [map_to_list] and joins
    paths with a slash. *)
Definition sampleRuntime : GoRuntime :=
  mkGoRuntime map_to_list (fun _ => reflexivity _)
    elements (fun _ => reflexivity _)
    (fun d n => d +:+ "/" +:+ n) (fun d n => d +:+ "/" +:+ n).

(** A runtime that ranges in the opposite order. *)
Definition reverseRuntime : GoRuntime :=
  mkGoRuntime (fun m => reverse (map_to_list m)) (fun _ => reverse_Permutation _)
    (fun X => reverse (elements X)) (fun _ => reverse_Permutation _)
    (fun d n => d +:+ "/" +:+ n) (fun d n => d +:+ "/" +:+ n).

(** A decoder: what it makes of a few file contents. *)
Definition sampleDecoder (content : string)
    : option Configuration * option error :=
  if bool_decide (content = "backend X") then
    (Some (mkConfiguration (Some {[ "X" := 1%N ]}) None None), None)
  else if bool_decide (content = "backend Y frontend web") then
    (Some (mkConfiguration (Some {[ "Y" := 2%N ]}) (Some {[ "web" := 3%N ]})
             None), None)
  else if bool_decide (content = "backend X again") then
    (Some (mkConfiguration (Some {[ "X" := 4%N ]}) None None), None)
  else if bool_decide (content = "tls") then
    (Some (mkConfiguration None None (Some [7%N; 7%N])), None)
  else if bool_decide (content = "") then (None, None)
  else if bool_decide (content = "absent") then
    (Some (mkConfiguration None None None), None)
  else (None, Some (DecodeError content)).

Definition sampleBase (filename : string) : BaseProvider :=
  mkBaseProvider true filename sampleDecoder sampleDecoder.

(** A provider of the directory [/conf], one of the file [/etc/app.toml]. *)
Definition directoryProvider : Provider :=
  mkProvider (sampleBase "") "/conf" ∅ "".
Definition fileProvider : Provider :=
  mkProvider (sampleBase "/etc/app.toml") "" ∅ "".

(** [/conf] holds [a.toml] (backend X), the directory [b] with [b.toml]
    (backend Y, frontend web) and [notes.bak]. *)
Definition sampleListing : list (string * node) :=
  [ ("a.toml", File (Some "backend X"));
    ("b", Dir (Some [ ("b.toml", File (Some "backend Y frontend web")) ]));
    ("notes.bak", File (Some "backend X again")) ].

Definition sampleTree : node := Dir (Some sampleListing).

Definition sampleFS : filesystem :=
  fun path => if bool_decide (path = "/conf") then Some sampleTree else None.

(** The loop of the provider of [/etc/app.toml], nothing sent yet. *)
Definition fileLoop : loopState :=
  mkLoopState fileProvider [] (mkWorld [] []).

(** A callback that sends one empty message each time it is called. *)
Definition tickCallback (fs : filesystem) (w : World) : option World :=
  Some (mkWorld (channel w ++ [mkConfigMessage "tick" None]) (logs w)).

(** The loop of the provider of [/conf], watching [/conf] and [/conf/b]. *)
Definition directoryLoop : loopState :=
  mkLoopState
    (set_watchedDirectories directoryProvider
       (<["/conf" := ["/conf"; "/conf/b"]]> (<["/conf/b" := ["/conf/b"]]> ∅)))
    [WatcherAdd "/conf"; WatcherAdd "/conf/b"] (mkWorld [] []).

(** [/conf] with a fragment the decoder rejects between two it accepts. *)
Definition brokenTree : node :=
  Dir (Some [ ("a.toml", File (Some "backend X"));
              ("sub", Dir (Some [ ("bad.toml", File (Some "garbage")) ]));
              ("z.toml", File (Some "backend Y frontend web")) ]).

Definition brokenFS : filesystem :=
  fun path => if bool_decide (path = "/conf") then Some brokenTree else None.

(** An accumulator that has the backend [X], and a fragment that defines
    [X] again. *)
Definition accumulatorX : Configuration :=
  mkConfiguration (Some {[ "X" := 1%N ]}) (Some ∅) None.
Definition fragmentX : Configuration :=
  mkConfiguration (Some {[ "X" := 4%N ]}) None None.

(** The file [/etc/app.toml] defines one backend and no frontend. *)
Definition partialFS : filesystem :=
  fun path =>
    if bool_decide (path = "/etc/app.toml") then Some (File (Some "backend X"))
    else None.

(** A file system where [/conf] is [sampleTree], [/etc/app.toml] a file
    and [/locked] a directory whose listing cannot be read. *)
Definition mixedFS : filesystem :=
  fun path =>
    if bool_decide (path = "/conf") then Some sampleTree
    else if bool_decide (path = "/etc/app.toml") then
      Some (File (Some "backend X"))
    else if bool_decide (path = "/locked") then Some (Dir None)
    else None.

(** [/srv] holds the directory [a], which holds the directories [b] and
    [c], and a file. *)
Definition deepListing : list (string * node) :=
  [ ("a", Dir (Some [ ("b", Dir (Some [])); ("c", Dir (Some [])) ]));
    ("f.toml", File (Some "backend X")) ].

Definition deepFS : filesystem :=
  fun path =>
    if bool_decide (path = "/srv") then Some (Dir (Some deepListing))
    else None.

Definition srvProvider : Provider :=
  mkProvider (sampleBase "") "/srv" ∅ "".

(** The loop of the provider of [/srv], nothing watched yet. *)
Definition srvLoop : loopState :=
  mkLoopState srvProvider [] (mkWorld [] []).

(** [/conf] with two fragments that define the backend [X], a directory
    between them. *)
Definition collisionListing : list (string * node) :=
  [ ("a.toml", File (Some "backend X"));
    ("b", Dir (Some [ ("b.toml", File (Some "backend Y frontend web")) ]));
    ("c.toml", File (Some "backend X again")) ].

Definition collisionFS : filesystem :=
  fun path =>
    if bool_decide (path = "/conf") then Some (Dir (Some collisionListing))
    else None.

(** A provider of [/conf] with another file name, another fallback file
    and a raw decoder that rejects everything. *)
Definition otherDirectoryProvider : Provider :=
  mkProvider
    (mkBaseProvider false "/etc/other.toml" sampleDecoder
       (fun content => (None, Some (DecodeError content))))
    "/conf" ∅ "/etc/fallback.toml".

(** A provider of [/conf] that does not watch, one of [/srv] that does,
    and a [filepath.Dir] for the paths of the samples. *)
Definition quietProvider : Provider :=
  mkProvider (mkBaseProvider false "" sampleDecoder sampleDecoder)
    "/conf" ∅ "".

Definition sampleDir (path : string) : string := (filepath_Split path).1.

(** A decoder that returns a configuration together with its error. *)
Definition halfDecoder (content : string)
    : option Configuration * option error :=
  (Some (mkConfiguration (Some {[ "half" := 5%N ]}) None None),
   Some (DecodeError content)).

Definition halfProvider : Provider :=
  mkProvider (mkBaseProvider false "/etc/app.toml" halfDecoder halfDecoder)
    "" ∅ "".

(** [/conf] with two files and, in a subdirectory, a third, each with the
    TLS configuration at address 7, twice. *)
Definition tlsListing : list (string * node) :=
  [ ("t.toml", File (Some "tls"));
    ("d", Dir (Some [ ("v.toml", File (Some "tls")) ]));
    ("u.toml", File (Some "tls")) ].

Definition tlsFS : filesystem :=
  fun path =>
    if bool_decide (path = "/conf") then Some (Dir (Some tlsListing))
    else None.

(** The loop of the provider of [/srv] after the scan of [/srv], and a
    file system in which the empty directory [/srv/new] has appeared. *)
Definition scannedLoop : loopState :=
  mkLoopState (getDirectoriesRecursively srvProvider deepFS "/srv").2
    (WatcherAdd <$> (getDirectoriesRecursively srvProvider deepFS "/srv").1.1)
    (mkWorld [] []).

Definition newDirFS : filesystem :=
  fun path =>
    if bool_decide (path = "/srv/new") then Some (Dir (Some []))
    else deepFS path.

(** * Properties *)

(** ** Induction on the file system *)

(** Induction on a node with the hypothesis for every entry of a
    listing. *)
Lemma node_tree_ind (P : node → Prop) :
  (∀ content, P (File content)) →
  P (Dir None) →
  (∀ fileList, Forall (fun item => P item.2) fileList → P (Dir (Some fileList))) →
  ∀ n, P n.
Proof.
  intros HFile HNone HSome.
  fix IH 1. intros [content|[fileList|]]; [apply HFile| |apply HNone].
  apply HSome. induction fileList as [|[name child] rest IHrest].
  - constructor.
  - constructor; [apply IH|apply IHrest].
Qed.

Lemma length_pos_iff (s : string) :
  (0 <? String.length s)%nat = true ↔ s ≠ "".
Proof.
  destruct s; simpl; split; intros; try done.
Qed.

Lemma length_zero_iff (s : string) :
  (String.length s =? 0)%nat = true ↔ s = "".
Proof.
  destruct s; simpl; split; intros; try done.
Qed.

(** ** loadFileConfig: normalisation *)

Lemma loadFileConfig_read (p : Provider) filename found parseTemplate content r :
  readFile filename found = (content, None) →
  decode p parseTemplate content = (r, None) →
  loadFileConfig p filename found parseTemplate =
    (if nilOrAllAbsent r then Some emptyConfiguration else r, None).
Proof.
  intros Hread Hdec. unfold loadFileConfig, decode in *. rewrite Hread.
  destruct parseTemplate; rewrite Hdec; by destruct (nilOrAllAbsent r).
Qed.

(** C4, as amended: when the decoder returns a nil result, or a result
    whose three containers are all absent, [loadFileConfig] returns a
    configuration whose backend map and frontend map are empty and non-nil
    and whose TLS sequence is the nil slice. *)
Theorem loadFileConfig_normalises (p : Provider) (filename : string)
    (found : option node) (parseTemplate : bool) (content : string)
    (r : option Configuration) :
  readFile filename found = (content, None) →
  decode p parseTemplate content = (r, None) →
  (r = None ∨
   ∃ c, r = Some c ∧ Backends c = None ∧ Frontends c = None ∧ TLS c = None) →
  ∃ cfg, loadFileConfig p filename found parseTemplate = (Some cfg, None)
         ∧ Backends cfg = Some ∅ ∧ Frontends cfg = Some ∅ ∧ TLS cfg = None.
Proof.
  intros Hread Hdec Habs.
  rewrite (loadFileConfig_read _ _ _ _ _ _ Hread Hdec).
  assert (nilOrAllAbsent r = true) as ->.
  { destruct Habs as [->|(c & -> & HB & HF & HT)]; [done|].
    simpl. by rewrite HB, HF, HT. }
  by exists emptyConfiguration.
Qed.

Lemma loadFileConfig_normalises_witness :
  ∃ cfg, loadFileConfig fileProvider "/etc/app.toml"
           (Some (File (Some "absent"))) true = (Some cfg, None)
         ∧ Backends cfg = Some ∅ ∧ Frontends cfg = Some ∅ ∧ TLS cfg = None.
Proof.
  apply (loadFileConfig_normalises fileProvider "/etc/app.toml"
           (Some (File (Some "absent"))) true "absent"
           (Some (mkConfiguration None None None))).
  - reflexivity.
  - reflexivity.
  - right. eexists. repeat split.
Defined.

(** C4, as stated, fails: the file is empty, the decoder returns nil, and
    the configuration [loadFileConfig] returns has a nil TLS slice. *)
Lemma loadFileConfig_tls_is_nil :
  decode fileProvider true "" = (None, None) ∧
  ¬ (∃ cfg, loadFileConfig fileProvider "/etc/app.toml"
              (Some (File (Some ""))) true = (Some cfg, None)
            ∧ is_Some (Backends cfg) ∧ is_Some (Frontends cfg)
            ∧ is_Some (TLS cfg)).
Proof.
  split; [reflexivity|].
  intros (cfg & Hload & _ & _ & [tls Htls]).
  vm_compute in Hload. injection Hload as <-. discriminate Htls.
Qed.

(** ** Single-target mode *)

(** C9: with no [Directory], an event whose base name differs from the
    tracked file's leaves the loop as it is, the callback is not called; an
    event whose base name is the tracked file's calls the callback once,
    on the state the event found. *)
Theorem single_target_event (callback : filesystem → World → option World)
    (fs : filesystem) (evt : Event) (st : loopState) :
  Directory (provider st) = "" →
  ((filepath_Split (Name evt)).2 ≠ (filepath_Split (trackedFile (provider st))).2 →
   handleEvent callback fs evt st = Some st)
  ∧ ((filepath_Split (Name evt)).2 = (filepath_Split (trackedFile (provider st))).2 →
     handleEvent callback fs evt st =
       w ← callback fs (world st);
       Some (mkLoopState (provider st) (watcher st) w)).
Proof.
  intros Hdir. unfold handleEvent, trackedFile.
  apply length_zero_iff in Hdir. rewrite Hdir.
  split; intros Hname.
  - by rewrite bool_decide_eq_false_2.
  - by rewrite bool_decide_eq_true_2.
Qed.

Lemma single_target_event_witness :
  handleEvent tickCallback sampleFS (mkEvent "/etc/other.txt" fsnotify_Write)
    fileLoop = Some fileLoop
  ∧ handleEvent tickCallback sampleFS (mkEvent "/tmp/app.toml" fsnotify_Write)
      fileLoop
    = Some (mkLoopState fileProvider [] (mkWorld [mkConfigMessage "tick" None] [])).
Proof.
  split.
  - apply (single_target_event tickCallback sampleFS
             (mkEvent "/etc/other.txt" fsnotify_Write) fileLoop); [reflexivity|].
    vm_compute. discriminate.
  - rewrite (proj2 (single_target_event tickCallback sampleFS
                      (mkEvent "/tmp/app.toml" fsnotify_Write) fileLoop
                      eq_refl)); reflexivity.
Defined.

(** ** Directory-tree mode: remove and rename events *)

Lemma removeSubDirectories_spec (subDirectories : list string) (k : nat)
    (calls : list watcherCall) (wd : gmap string (list string)) :
  (k ≤ length subDirectories)%nat →
  removeSubDirectories subDirectories k calls wd =
    (calls ++ (WatcherRemove <$> reverse (take k subDirectories)),
     foldl (fun m d => delete d m) wd (reverse (take k subDirectories))).
Proof.
  revert calls wd. induction k as [|i IH]; intros calls wd Hk; simpl.
  - by rewrite app_nil_r.
  - destruct (lookup_lt_is_Some_2 subDirectories i) as [d Hd]; [lia|].
    rewrite Hd, IH by lia.
    rewrite (take_S_r _ _ _ Hd), reverse_app. simpl.
    by rewrite <- app_assoc.
Qed.

Lemma lookup_foldl_delete (ds : list string) (wd : gmap string (list string))
    (k : string) :
  foldl (fun m d => delete d m) wd ds !! k =
    if decide (k ∈ ds) then None else wd !! k.
Proof.
  revert wd. induction ds as [|d ds IH]; intros wd.
  - done.
  - cbn [foldl]. rewrite IH. destruct (decide (k = d)) as [->|Hne].
    + rewrite lookup_delete_eq, (decide_True (P := d ∈ d :: ds)) by left.
      by destruct (decide _).
    + rewrite lookup_delete_ne by done.
      destruct (decide (k ∈ ds)) as [Hin|Hin].
      * by rewrite decide_True by by right.
      * rewrite decide_False; [done|]. by intros [?|?]%elem_of_cons.
Qed.

(** Deleting entries keeps every remaining list headed by its key. *)
Lemma rootFirst_foldl_delete (ds : list string) (wd : gmap string (list string)) :
  rootFirst wd → rootFirst (foldl (fun m d => delete d m) wd ds).
Proof.
  intros Hwd k l. rewrite lookup_foldl_delete.
  destruct (decide _); [done|]. apply Hwd.
Qed.

Lemma rootFirst_empty : rootFirst ∅.
Proof. intros k l. by rewrite lookup_empty. Qed.

Lemma rootFirst_insert (wd : gmap string (list string)) k l :
  head l = Some k → rootFirst wd → rootFirst (<[k := l]> wd).
Proof.
  intros Hl Hwd k' l'. rewrite lookup_insert.
  destruct (decide (k = k')) as [<-|]; [by intros [= <-]|apply Hwd].
Qed.

(** In directory-tree mode a remove or rename event runs
    [onRemoveOrRename] and then the callback. *)
Lemma handleEvent_remove (callback : filesystem → World → option World)
    (fs : filesystem) (evt : Event) (st : loopState) :
  Directory (provider st) ≠ "" →
  Op evt = fsnotify_Remove ∨ Op evt = fsnotify_Rename →
  handleEvent callback fs evt st =
    (w ← callback fs (world st);
     Some (mkLoopState (provider (onRemoveOrRename evt st))
             (watcher (onRemoveOrRename evt st)) w)).
Proof.
  intros Hdir Hop. unfold handleEvent.
  assert ((String.length (Directory (provider st)) =? 0)%nat = false) as ->.
  { apply not_true_is_false. by rewrite length_zero_iff. }
  assert (bool_decide (Op evt = fsnotify_Remove)
          || bool_decide (Op evt = fsnotify_Rename) = true) as ->.
  { destruct Hop as [->| ->]; reflexivity. }
  assert (world (onRemoveOrRename evt st) = world st) as ->; [|done].
  unfold onRemoveOrRename. destruct (_ !! Name evt); [|done].
  by destruct (removeSubDirectories _ _ _ _).
Qed.

(** [onRemoveOrRename] when the path of the event is a key. *)
Lemma onRemoveOrRename_key (evt : Event) (st : loopState)
    (subDirectories : list string) :
  watchedDirectories (provider st) !! Name evt = Some subDirectories →
  onRemoveOrRename evt st =
    mkLoopState
      (set_watchedDirectories (provider st)
         (foldl (fun m d => delete d m) (watchedDirectories (provider st))
            (reverse subDirectories)))
      (watcher st ++ (WatcherRemove <$> reverse subDirectories))
      (world st).
Proof.
  intros Hkey. unfold onRemoveOrRename. rewrite Hkey.
  rewrite removeSubDirectories_spec by done. by rewrite firstn_all.
Qed.

(** C7: in directory-tree mode, on a remove or rename event, the loop
    calls the callback on the state [onRemoveOrRename] leaves.  When the
    path of the event is a key of the map of watched directories, the
    watcher is asked to remove every entry of the recorded list, last
    entry first, every entry of the list is deleted from the map, the path
    of the event among them, and the other keys keep their lists; when it
    is not a key, nothing is removed and the map is unchanged. *)
Theorem remove_event_unwatches (callback : filesystem → World → option World)
    (fs : filesystem) (evt : Event) (st : loopState) :
  Directory (provider st) ≠ "" →
  Op evt = fsnotify_Remove ∨ Op evt = fsnotify_Rename →
  rootFirst (watchedDirectories (provider st)) →
  let st' := onRemoveOrRename evt st in
  let wd := watchedDirectories (provider st) in
  let wd' := watchedDirectories (provider st') in
  handleEvent callback fs evt st =
    (w ← callback fs (world st);
     Some (mkLoopState (provider st') (watcher st') w))
  ∧ rootFirst wd'
  ∧ match wd !! Name evt with
    | Some subDirectories =>
        watcher st' = watcher st ++ (WatcherRemove <$> reverse subDirectories)
        ∧ wd' !! Name evt = None
        ∧ (∀ d, d ∈ subDirectories → wd' !! d = None)
        ∧ (∀ k, k ∉ subDirectories → wd' !! k = wd !! k)
    | None => watcher st' = watcher st ∧ wd' = wd
    end.
Proof.
  intros Hdir Hop Hroot st' wd wd'.
  split; [by apply handleEvent_remove|].
  subst st' wd'. fold wd.
  destruct (wd !! Name evt) as [subDirectories|] eqn:Hkey.
  - rewrite (onRemoveOrRename_key _ _ _ Hkey). simpl. fold wd.
    split; [by apply rootFirst_foldl_delete|].
    assert (Name evt ∈ reverse subDirectories) as Hin.
    { apply elem_of_reverse. specialize (Hroot _ _ Hkey).
      destruct subDirectories; [done|]. injection Hroot as ->. left. }
    split; [done|]. split; [|split].
    + rewrite lookup_foldl_delete. by rewrite decide_True.
    + intros d Hd. rewrite lookup_foldl_delete.
      rewrite decide_True; [done|]. by apply elem_of_reverse.
    + intros k Hk. rewrite lookup_foldl_delete.
      rewrite decide_False; [done|]. by rewrite elem_of_reverse.
  - unfold onRemoveOrRename. fold wd. by rewrite Hkey.
Qed.

Lemma remove_event_unwatches_witness :
  let evt := mkEvent "/conf" fsnotify_Remove in
  let st' := onRemoveOrRename evt directoryLoop in
  handleEvent tickCallback sampleFS evt directoryLoop =
    Some (mkLoopState (provider st') (watcher st')
            (mkWorld [mkConfigMessage "tick" None] []))
  ∧ watcher st' =
      [WatcherAdd "/conf"; WatcherAdd "/conf/b";
       WatcherRemove "/conf/b"; WatcherRemove "/conf"]
  ∧ watchedDirectories (provider st') !! "/conf" = None
  ∧ watchedDirectories (provider st') !! "/conf/b" = None.
Proof.
  intros evt st'.
  destruct (remove_event_unwatches tickCallback sampleFS evt directoryLoop)
    as (Hev & _ & Hwd).
  - discriminate.
  - left; reflexivity.
  - apply rootFirst_insert; [reflexivity|].
    apply rootFirst_insert; [reflexivity|]. apply rootFirst_empty.
  - split; [exact Hev|].
    change (watchedDirectories (provider directoryLoop) !! Name evt)
      with (Some ["/conf"; "/conf/b"]) in Hwd.
    destruct Hwd as (Hcalls & Hkey & Hall & _).
    split; [exact Hcalls|]. split; [exact Hkey|].
    apply Hall. right; left.
Defined.

(** ** Merging one fragment *)

Lemma filter_ext_elem {A} (P Q : A → Prop) `{!∀ x, Decision (P x)}
    `{!∀ x, Decision (Q x)} (l : list A) :
  (∀ x, x ∈ l → P x ↔ Q x) → filter P l = filter Q l.
Proof.
  induction l as [|x l IH]; intros Hext; [done|].
  rewrite !filter_cons.
  rewrite IH by (intros y Hy; apply Hext; by right).
  destruct (decide (P x)) as [HP|HP], (decide (Q x)) as [HQ|HQ]; try done.
  - exfalso. apply HQ, Hext; [left|done].
  - exfalso. apply HP, Hext; [left|done].
Qed.

Lemma union_insert_absent (B M : gmap string ptr) k v :
  B !! k = None → <[k := v]> B ∪ M = B ∪ <[k := v]> M.
Proof.
  intros HB. by rewrite <- insert_union_l, insert_union_r.
Qed.

Lemma union_insert_present (B M : gmap string ptr) k v :
  is_Some (B !! k) → B ∪ <[k := v]> M = B ∪ M.
Proof.
  intros [b Hb]. apply map_eq. intros i. rewrite !lookup_union.
  destruct (decide (k = i)) as [<-|Hne].
  - rewrite Hb, lookup_insert_eq. by destruct (M !! k).
  - by rewrite lookup_insert_ne.
Qed.

(** The loop over the fragment's backends, for a list of entries with
    distinct names. *)
Lemma foldl_mergeBackend (l : list (string * ptr)) (cfg : Configuration)
    (B : gmap string ptr) (lg : list logLine) :
  Backends cfg = Some B → NoDup l.*1 →
  foldl mergeBackend (Some (Some cfg, lg)) l =
    Some (Some (mkConfiguration (Some (B ∪ list_to_map l)) (Frontends cfg)
                  (TLS cfg)),
          lg ++ (WarnBackendAlreadyConfigured
                   <$> filter (fun k => is_Some (B !! k)) l.*1)).
Proof.
  revert cfg B lg. induction l as [|[k v] l IH]; intros cfg B lg HB Hnd.
  - simpl. rewrite app_nil_r, (right_id_L ∅ (∪)). by destruct cfg; simplify_eq/=.
  - rewrite fmap_cons in Hnd. apply NoDup_cons in Hnd as [Hk Hnd].
    cbn [foldl fst] in *.
    unfold mergeBackend at 2. simpl. rewrite HB.
    destruct (B !! k) as [b|] eqn:Hb.
    + rewrite (IH cfg B) by done. simpl.
      rewrite union_insert_present by by rewrite Hb.
      rewrite filter_cons_True by by rewrite Hb.
      by rewrite fmap_cons, <- app_assoc.
    + rewrite (IH _ (<[k := v]> B)) by done. simpl.
      rewrite union_insert_absent by done.
      rewrite filter_cons_False by (rewrite Hb; by intros [??]).
      rewrite (filter_ext_elem (fun k0 => is_Some (<[k := v]> B !! k0))
                 (fun k0 => is_Some (B !! k0)) l.*1); [done|].
      intros k' Hk'. rewrite lookup_insert_ne; [done|]. by intros ->.
Qed.

(** The loop over the fragment's frontends. *)
Lemma foldl_mergeFrontend (l : list (string * ptr)) (cfg : Configuration)
    (F : gmap string ptr) (lg : list logLine) :
  Frontends cfg = Some F → NoDup l.*1 →
  foldl mergeFrontend (Some (Some cfg, lg)) l =
    Some (Some (mkConfiguration (Backends cfg) (Some (F ∪ list_to_map l))
                  (TLS cfg)),
          lg ++ (WarnFrontendAlreadyConfigured
                   <$> filter (fun k => is_Some (F !! k)) l.*1)).
Proof.
  revert cfg F lg. induction l as [|[k v] l IH]; intros cfg F lg HF Hnd.
  - simpl. rewrite app_nil_r, (right_id_L ∅ (∪)). by destruct cfg; simplify_eq/=.
  - rewrite fmap_cons in Hnd. apply NoDup_cons in Hnd as [Hk Hnd].
    cbn [foldl fst] in *.
    unfold mergeFrontend at 2. simpl. rewrite HF.
    destruct (F !! k) as [b|] eqn:Hb.
    + rewrite (IH cfg F) by done. simpl.
      rewrite union_insert_present by by rewrite Hb.
      rewrite filter_cons_True by by rewrite Hb.
      by rewrite fmap_cons, <- app_assoc.
    + rewrite (IH _ (<[k := v]> F)) by done. simpl.
      rewrite union_insert_absent by done.
      rewrite filter_cons_False by (rewrite Hb; by intros [??]).
      rewrite (filter_ext_elem (fun k0 => is_Some (<[k := v]> F !! k0))
                 (fun k0 => is_Some (F !! k0)) l.*1); [done|].
      intros k' Hk'. rewrite lookup_insert_ne; [done|]. by intros ->.
Qed.

(** [range] visits every entry of the map once. *)
Lemma range_of_NoDup (rt : GoRuntime) (m : option (gmap string ptr)) :
  NoDup (range_of rt m).*1.
Proof.
  destruct m as [g|]; simpl; [|constructor].
  rewrite (range_map_perm rt g). apply NoDup_fst_map_to_list.
Qed.

Lemma range_of_to_map (rt : GoRuntime) (m : option (gmap string ptr)) :
  list_to_map (range_of rt m) = default (∅ : gmap string ptr) m.
Proof.
  destruct m as [g|]; simpl; [|done].
  rewrite <- (list_to_map_to_list g) at 2.
  apply list_to_map_proper; [|apply range_map_perm].
  rewrite (range_map_perm rt g). apply NoDup_fst_map_to_list.
Qed.

(** The loop over the fragment's TLS configurations only logs warnings
    about TLS configurations. *)
Lemma foldl_mergeTLS (l : list ptr) (tls : gset ptr) (lg : list logLine) :
  ∃ wT, (foldl mergeTLS (tls, lg) l).2 = lg ++ wT
        ∧ Forall (fun w => ∃ conf, w = WarnTLSAlreadyConfigured conf) wT.
Proof.
  revert tls lg. induction l as [|conf l IH]; intros tls lg.
  - exists []. by rewrite app_nil_r.
  - cbn [foldl]. unfold mergeTLS at 2. simpl.
    destruct (bool_decide (conf ∈ tls)).
    + destruct (IH tls (lg ++ [WarnTLSAlreadyConfigured conf])) as (wT & -> & HwT).
      exists (WarnTLSAlreadyConfigured conf :: wT).
      rewrite <- app_assoc. split; [done|]. constructor; [by eexists|done].
    + apply IH.
Qed.

(** What [mergeFragment] does to an accumulator whose maps are not nil:
    no panic, the maps are merged, the TLS sequence is untouched, the log
    grows by the warnings about colliding names and about TLS. *)
Lemma mergeFragment_spec (rt : GoRuntime) (frag cfg : Configuration)
    (B F : gmap string ptr) (tls : gset ptr) (lg : list logLine) :
  Backends cfg = Some B → Frontends cfg = Some F →
  ∃ tls' wT,
    mergeFragment rt (Some frag) (Some cfg) tls lg =
      Some ((Some (mkConfiguration (Some (mergedWith B (Backends frag)))
                     (Some (mergedWith F (Frontends frag))) (TLS cfg)),
             tls'),
            lg ++ (WarnBackendAlreadyConfigured <$> collisions rt B (Backends frag))
               ++ (WarnFrontendAlreadyConfigured <$> collisions rt F (Frontends frag))
               ++ wT)
    ∧ Forall (fun w => ∃ conf, w = WarnTLSAlreadyConfigured conf) wT.
Proof.
  intros HB HF. unfold mergeFragment. simpl.
  rewrite (foldl_mergeBackend _ cfg B) by (done || apply range_of_NoDup).
  simpl.
  rewrite (foldl_mergeFrontend _ _ F) by (done || apply range_of_NoDup).
  simpl. rewrite !range_of_to_map.
  match goal with |- context [foldl mergeTLS (tls, ?l0) ?l] =>
    destruct (foldl_mergeTLS l tls l0) as (wT & HwT & Hall);
    destruct (foldl mergeTLS (tls, l0) l) as [tls' lg'] eqn:Hfold end.
  simpl in HwT. subst lg'. exists tls', wT. split; [|done].
  unfold mergedWith, collisions. by rewrite <- !app_assoc.
Qed.

(** ** The walk over a directory tree *)

Lemma firstFailure_app (l1 l2 : list visit) :
  firstFailure (l1 ++ l2) =
    match firstFailure l1 with Some e => Some e | None => firstFailure l2 end.
Proof.
  induction l1 as [|v l1 IH]; [done|]. simpl. by destruct (visitError v).
Qed.

Lemma beforeFailure_app_ok (l1 l2 : list visit) :
  firstFailure l1 = None → beforeFailure (l1 ++ l2) = l1 ++ beforeFailure l2.
Proof.
  induction l1 as [|v l1 IH]; [done|]. simpl.
  destruct (visitError v); [done|]. intros H. by rewrite IH.
Qed.

Lemma beforeFailure_app_failed (l1 l2 : list visit) e :
  firstFailure l1 = Some e → beforeFailure (l1 ++ l2) = beforeFailure l1.
Proof.
  induction l1 as [|v l1 IH]; [done|]. simpl.
  destruct (visitError v); [done|]. intros H. by rewrite IH.
Qed.

Lemma beforeFailure_all (l : list visit) :
  firstFailure l = None → beforeFailure l = l.
Proof.
  intros H. rewrite <- (app_nil_r l) at 1.
  rewrite beforeFailure_app_ok by done. by rewrite app_nil_r.
Qed.

Lemma mergedAfter_app field acc (l1 l2 : list visit) :
  mergedAfter field acc (l1 ++ l2) =
    mergedAfter field (mergedAfter field acc l1) l2.
Proof. apply foldl_app. Qed.

(** A successful [loadFileConfig] returns a configuration, never nil. *)
Lemma loadFileConfig_ok_not_nil (p : Provider) filename found parseTemplate c :
  loadFileConfig p filename found parseTemplate = (c, None) → is_Some c.
Proof.
  unfold loadFileConfig. destruct (readFile filename found) as [content [e|]];
    [done|].
  destruct (if parseTemplate then _ else _) as [r [e|]]; [done|].
  destruct (nilOrAllAbsent r) eqn:Hr; intros [= <-]; [done|].
  by destruct r.
Qed.

(** The last loop appends to the TLS sequence and leaves the maps. *)
Lemma foldl_appendTLS (l : list ptr) (cfg : Configuration) :
  ∃ cfg', foldl appendTLS (Some (Some cfg)) l = Some (Some cfg')
          ∧ Backends cfg' = Backends cfg ∧ Frontends cfg' = Frontends cfg.
Proof.
  revert cfg. induction l as [|conf l IH]; intros cfg; [by exists cfg|].
  cbn [foldl]. unfold appendTLS at 2. simpl.
  destruct (IH (mkConfiguration (Backends cfg) (Frontends cfg)
                  (Some (default [] (TLS cfg) ++ [conf])))) as (cfg' & -> & ? & ?).
  by exists cfg'.
Qed.

(** The loop over a listing, when the walk below every entry is as
    [walkOf] says. *)
Lemma rangeFileList_walk (rt : GoRuntime) (p : Provider)
    (fileList : list (string * node)) :
  Forall (fun item => walkOf rt p item.2) fileList →
  ∀ directory cfg B F tls lg0,
    Backends cfg = Some B → Frontends cfg = Some F →
    let vs := visitsOfList (fun d c => visits rt p d c) rt p directory fileList in
    ∃ cfg' r lg,
      rangeFileList (fun d c a => loadDirectoryOf rt p d c a) rt p directory
        fileList (Some cfg) tls lg0 = Some ((Some cfg', r), lg)
      ∧ Backends cfg' = Some (mergedAfter Backends B (beforeFailure vs))
      ∧ Frontends cfg' = Some (mergedAfter Frontends F (beforeFailure vs))
      ∧ endsWith vs (match r with inl _ => None | inr e => Some e end).
Proof.
  induction 1 as [|[name child] rest Hchild _ IH];
    intros directory cfg B F tls lg0 HB HF vs.
  { exists cfg, (inl tls), lg0. by repeat split. }
  subst vs. cbn [rangeFileList visitsOfList fst snd] in *.
  destruct (IsDir child) eqn:Hdir.
  - (* a subdirectory *)
    destruct (Hchild (filepath_Join rt directory name) cfg B F HB HF)
      as (cfg1 & err1 & lg1 & -> & HB1 & HF1 & Hend1).
    simpl. unfold endsWith in *. rewrite firstFailure_app.
    destruct (firstFailure (visits rt p (filepath_Join rt directory name) child))
      as [e|] eqn:Hfail.
    + destruct Hend1 as (e' & -> & Hwrap).
      rewrite (beforeFailure_app_failed _ _ e) by done.
      eexists cfg1, (inr _), _. split; [done|]. repeat split; [done..|].
      eexists; split; [done|]. by constructor.
    + subst err1. rewrite beforeFailure_app_ok by done.
      rewrite (beforeFailure_all _ Hfail) in HB1, HF1.
      destruct (IH directory cfg1 _ _ tls (lg0 ++ lg1) HB1 HF1)
        as (cfg' & r & lg & -> & HB' & HF' & Hend').
      exists cfg', r, lg. rewrite !mergedAfter_app. by repeat split.
  - (* a file *)
    unfold recognised.
    destruct (strings_HasSuffix name ".toml") eqn:Htoml,
             (strings_HasSuffix name ".tmpl") eqn:Htmpl; cbn [negb andb orb];
      try (simpl; apply IH; done).
    all: destruct (loadFileConfig p (path_Join rt directory name) (Some child) true)
           as [c [e|]] eqn:Hload; simpl.
    all: try (exists cfg, (inr e), lg0; unfold endsWith; simpl;
              repeat split; [done..|]; exists e; split; [done|constructor]).
    all: destruct (loadFileConfig_ok_not_nil _ _ _ _ _ Hload) as [frag ->].
    all: destruct (mergeFragment_spec rt frag cfg B F tls lg0 HB HF)
           as (tls' & wT & -> & _); simpl.
    all: match goal with |- context [rangeFileList _ _ _ _ _ (Some ?c) ?t ?l] =>
           destruct (IH directory c _ _ t l eq_refl eq_refl)
             as (cfg' & r & lg & -> & HB' & HF' & Hend') end.
    all: exists cfg', r, lg; by repeat split.
Qed.

(** The walk below every node is as [walkOf] says. *)
Lemma loadDirectoryOf_walk (rt : GoRuntime) (p : Provider) (n : node) :
  walkOf rt p n.
Proof.
  induction n as [content| |fileList IH] using node_tree_ind;
    intros directory cfg B F HB HF.
  - exists cfg, (Some (UnableToReadDirectory directory
                         (SysError "readdir" directory))), [].
    repeat split; [done..|]. eexists; split; [done|constructor].
  - exists cfg, (Some (UnableToReadDirectory directory
                         (SysError "readdir" directory))), [].
    repeat split; [done..|]. eexists; split; [done|constructor].
  - cbn [loadDirectoryOf visits].
    destruct (rangeFileList_walk rt p fileList IH directory cfg B F ∅ [] HB HF)
      as (cfg1 & r & lg & -> & HB1 & HF1 & Hend).
    simpl. destruct r as [tls|e].
    + destruct (foldl_appendTLS (range_set rt tls) cfg1)
        as (cfg' & -> & HB' & HF').
      exists cfg', None, lg. simpl. rewrite HB', HF'. by repeat split.
    + by exists cfg1, (Some e), lg.
Qed.

Lemma firstFailure_None (vs : list visit) :
  firstFailure vs = None ↔ Forall (fun v => visitError v = None) vs.
Proof.
  induction vs as [|v vs IH]; simpl.
  - split; [constructor|done].
  - rewrite Forall_cons, <- IH. destruct (visitError v) as [e|].
    + split; [done|]. by intros [? _].
    + split; [by intros ?|by intros [_ ?]].
Qed.

Lemma firstFailure_Some (vs : list visit) (v : visit) :
  v ∈ vs → is_Some (visitError v) → is_Some (firstFailure vs).
Proof.
  intros Hin Hv. destruct (firstFailure vs) eqn:Hf; [done|].
  apply firstFailure_None in Hf. rewrite Forall_forall in Hf.
  rewrite (Hf v Hin) in Hv. by destruct Hv.
Qed.

(** Visits that loaded nothing leave the map as it is. *)
Lemma mergedAfter_fragments field acc (vs : list visit) :
  mergedAfter field acc vs = unionAll field acc (omap fragmentOf vs).
Proof.
  unfold mergedAfter, unionAll. revert acc.
  induction vs as [|v vs IH]; intros acc; [done|]. simpl.
  destruct (fragmentOf v) as [frag|]; simpl; [apply IH|].
  unfold mergedWith at 2. simpl. rewrite (right_id_L ∅ (∪)). apply IH.
Qed.

Lemma mergedWith_lookup (acc : gmap string ptr) frag name :
  mergedWith acc frag !! name =
    match acc !! name with Some b => Some b | None => frag ≫= (.!! name) end.
Proof.
  unfold mergedWith. rewrite lookup_union.
  destruct (acc !! name), frag as [g|]; simpl; try done.
  - by destruct (g !! name).
  - by destruct (g !! name).
Qed.

(** What the accumulator has, it keeps. *)
Lemma unionAll_keeps field acc (frags : list Configuration) name b :
  acc !! name = Some b → unionAll field acc frags !! name = Some b.
Proof.
  revert acc. induction frags as [|f frags IH]; intros acc Hacc; [done|].
  apply IH. by rewrite mergedWith_lookup, Hacc.
Qed.

(** Every entry of the merged map is the accumulator's or a fragment's. *)
Lemma unionAll_from field acc (frags : list Configuration) name b :
  unionAll field acc frags !! name = Some b →
  acc !! name = Some b
  ∨ ∃ frag, frag ∈ frags ∧ field frag ≫= (.!! name) = Some b.
Proof.
  revert acc. induction frags as [|f frags IH]; intros acc; [by left|].
  intros H. apply IH in H as [H|(frag & Hin & H)].
  - rewrite mergedWith_lookup in H. destruct (acc !! name); [by left|].
    right. exists f. split; [left|done].
  - right. exists frag. split; [by right|done].
Qed.

Lemma distinctNames_tail field f (frags : list Configuration) :
  distinctNames field (f :: frags) → distinctNames field frags.
Proof.
  intros Hd i j f1 f2 name Hij H1 H2. apply (Hd (S i) (S j)); auto.
Qed.

(** When no name is defined twice, every entry of every fragment is in
    the merged map. *)
Lemma unionAll_has field (frags : list Configuration) acc frag name b :
  distinctNames field frags →
  acc !! name = None →
  frag ∈ frags → field frag ≫= (.!! name) = Some b →
  unionAll field acc frags !! name = Some b.
Proof.
  revert acc. induction frags as [|f frags IH]; intros acc Hd Hacc Hin Hb.
  { by apply elem_of_nil in Hin. }
  cbn [unionAll foldl]. fold (unionAll field (mergedWith acc (field f)) frags).
  destruct (field f ≫= (.!! name)) as [b'|] eqn:Hf.
  - apply elem_of_cons in Hin as [->|Hin].
    + apply unionAll_keeps. rewrite mergedWith_lookup, Hacc. congruence.
    + exfalso. apply list_elem_of_lookup in Hin as [j Hj].
      apply (Hd 0 (S j) f frag name); [done..| |].
      * by rewrite Hf.
      * by rewrite Hb.
  - apply elem_of_cons in Hin as [->|Hin]; [congruence|].
    apply IH; [by eapply distinctNames_tail| |done..].
    by rewrite mergedWith_lookup, Hacc.
Qed.

(** The walk started by [BuildConfiguration], with a nil accumulator. *)
Lemma loadDirectoryOf_nil (rt : GoRuntime) (p : Provider) directory fileList :
  let vs := visits rt p directory (Dir (Some fileList)) in
  ∃ cfg err lg,
    loadDirectoryOf rt p directory (Dir (Some fileList)) None =
      Some ((Some cfg, err), lg)
    ∧ Backends cfg = Some (mergedAfter Backends ∅ (beforeFailure vs))
    ∧ Frontends cfg = Some (mergedAfter Frontends ∅ (beforeFailure vs))
    ∧ endsWith vs err.
Proof.
  intros vs.
  change (loadDirectoryOf rt p directory (Dir (Some fileList)) None)
    with (loadDirectoryOf rt p directory (Dir (Some fileList))
            (Some emptyConfiguration)).
  by apply loadDirectoryOf_walk.
Qed.

(** ** The merged configuration *)

(** C1: when the listings of the tree can be read, its recognised files
    all load, and no backend name and no frontend name is defined by two
    fragments, [loadFileConfigFromDirectory] succeeds, and the entries of
    the [Backends] map, and of the [Frontends] map, of the configuration it
    returns are the entries of the fragments. *)
Theorem distinct_names_union (rt : GoRuntime) (p : Provider) (fs : filesystem)
    (directory : string) (fileList : list (string * node)) :
  fs directory = Some (Dir (Some fileList)) →
  Forall (fun v => visitError v = None)
    (visits rt p directory (Dir (Some fileList))) →
  distinctNames Backends (fragments rt p directory (Dir (Some fileList))) →
  distinctNames Frontends (fragments rt p directory (Dir (Some fileList))) →
  ∃ cfg lg B F,
    loadFileConfigFromDirectory rt p fs directory None =
      Some ((Some cfg, None), lg)
    ∧ Backends cfg = Some B ∧ Frontends cfg = Some F
    ∧ (∀ name b,
         B !! name = Some b ↔
         ∃ frag, frag ∈ fragments rt p directory (Dir (Some fileList))
                 ∧ Backends frag ≫= (.!! name) = Some b)
    ∧ (∀ name b,
         F !! name = Some b ↔
         ∃ frag, frag ∈ fragments rt p directory (Dir (Some fileList))
                 ∧ Frontends frag ≫= (.!! name) = Some b).
Proof.
  intros Hfs Hok HdB HdF. unfold loadFileConfigFromDirectory. rewrite Hfs.
  destruct (loadDirectoryOf_nil rt p directory fileList)
    as (cfg & err & lg & -> & HB & HF & Hend).
  apply firstFailure_None in Hok. unfold endsWith in Hend.
  rewrite Hok in Hend. subst err.
  rewrite (beforeFailure_all _ Hok), mergedAfter_fragments in HB, HF.
  fold (fragments rt p directory (Dir (Some fileList))) in HB, HF.
  eexists cfg, lg, _, _. split; [done|]. split; [exact HB|]. split; [exact HF|].
  split; intros name b; split.
  - intros [H|H]%unionAll_from; [by rewrite lookup_empty in H|done].
  - intros (frag & Hin & H). by eapply unionAll_has.
  - intros [H|H]%unionAll_from; [by rewrite lookup_empty in H|done].
  - intros (frag & Hin & H). by eapply unionAll_has.
Qed.

Lemma distinct_names_union_witness :
  ∃ cfg lg B F,
    loadFileConfigFromDirectory sampleRuntime directoryProvider sampleFS
      "/conf" None = Some ((Some cfg, None), lg)
    ∧ Backends cfg = Some B ∧ Frontends cfg = Some F
    ∧ (∀ name b,
         B !! name = Some b ↔
         ∃ frag, frag ∈ fragments sampleRuntime directoryProvider "/conf"
                          (Dir (Some sampleListing))
                 ∧ Backends frag ≫= (.!! name) = Some b)
    ∧ (∀ name b,
         F !! name = Some b ↔
         ∃ frag, frag ∈ fragments sampleRuntime directoryProvider "/conf"
                          (Dir (Some sampleListing))
                 ∧ Frontends frag ≫= (.!! name) = Some b).
Proof.
  assert (fragments sampleRuntime directoryProvider "/conf"
            (Dir (Some sampleListing)) =
          [ mkConfiguration (Some {[ "X" := 1%N ]}) None None;
            mkConfiguration (Some {[ "Y" := 2%N ]}) (Some {[ "web" := 3%N ]})
              None ]) as Hfrags by (vm_compute; reflexivity).
  apply (distinct_names_union sampleRuntime directoryProvider sampleFS "/conf"
           sampleListing).
  - reflexivity.
  - vm_compute. repeat constructor.
  - rewrite Hfrags. intros i j f1 f2 name Hij H1 H2 [b1 Hb1] [b2 Hb2].
    destruct i as [|[|i]], j as [|[|j]]; simplify_eq/=.
    + apply lookup_singleton_Some in Hb1 as [<- _].
      by apply lookup_singleton_Some in Hb2 as [? _].
    + apply lookup_singleton_Some in Hb1 as [<- _].
      by apply lookup_singleton_Some in Hb2 as [? _].
  - rewrite Hfrags. intros i j f1 f2 name Hij H1 H2 [b1 Hb1] [b2 Hb2].
    destruct i as [|[|i]], j as [|[|j]]; simplify_eq/=.
Defined.

(** The first failure splits the visits: those before it do not fail. *)
Lemma firstFailure_split (vs : list visit) (e0 : error) :
  firstFailure vs = Some e0 →
  ∃ pre v post,
    vs = pre ++ v :: post
    ∧ Forall (fun v => visitError v = None) pre
    ∧ visitError v = Some e0
    ∧ beforeFailure vs = pre.
Proof.
  induction vs as [|v vs IH]; [done|]. simpl.
  destruct (visitError v) as [e|] eqn:Hv.
  - intros [= ->]. by exists [], v, vs.
  - intros (pre & v' & post & -> & Hpre & Hv' & ->)%IH.
    exists (v :: pre), v', post. repeat split; [|done].
    by constructor.
Qed.

(** ** A fragment that fails to load *)

(** C5: when some recognised file of the tree fails to load,
    [loadFileConfigFromDirectory] returns an error.  The walk stops at the
    first visit that fails: the error returned is the error of that visit,
    wrapped by the directories the walk returns through, and the
    accumulator returned holds the fragments met before it and no other. *)
Theorem failing_fragment_aborts (rt : GoRuntime) (p : Provider)
    (fs : filesystem) (directory : string) (n : node)
    (c : option Configuration) (e : error) :
  fs directory = Some n →
  Loaded (c, Some e) ∈ visits rt p directory n →
  ∃ cfg err lg pre v post e0,
    loadFileConfigFromDirectory rt p fs directory None =
      Some ((Some cfg, Some err), lg)
    ∧ visits rt p directory n = pre ++ v :: post
    ∧ Forall (fun v => visitError v = None) pre
    ∧ visitError v = Some e0
    ∧ wraps e0 err
    ∧ Backends cfg = Some (mergedAfter Backends ∅ pre)
    ∧ Frontends cfg = Some (mergedAfter Frontends ∅ pre).
Proof.
  intros Hfs Hin. unfold loadFileConfigFromDirectory. rewrite Hfs.
  destruct n as [content|[fileList|]].
  - simpl in Hin. by apply list_elem_of_singleton in Hin.
  - destruct (loadDirectoryOf_nil rt p directory fileList)
      as (cfg & err & lg & -> & HB & HF & Hend).
    destruct (firstFailure_Some _ _ Hin) as [e0 He0]; [by eexists|].
    unfold endsWith in Hend. rewrite He0 in Hend.
    destruct Hend as (e' & -> & Hwrap).
    destruct (firstFailure_split _ _ He0) as (pre & v & post & Hvs & Hpre & Hv & Hbefore).
    rewrite Hbefore in HB, HF.
    by exists cfg, e', lg, pre, v, post, e0.
  - simpl in Hin. by apply list_elem_of_singleton in Hin.
Qed.

Lemma failing_fragment_aborts_witness :
  ∃ cfg err lg pre v post e0,
    loadFileConfigFromDirectory sampleRuntime directoryProvider brokenFS
      "/conf" None = Some ((Some cfg, Some err), lg)
    ∧ visits sampleRuntime directoryProvider "/conf" brokenTree
      = pre ++ v :: post
    ∧ Forall (fun v => visitError v = None) pre
    ∧ visitError v = Some e0
    ∧ wraps e0 err
    ∧ Backends cfg = Some (mergedAfter Backends ∅ pre)
    ∧ Frontends cfg = Some (mergedAfter Frontends ∅ pre).
Proof.
  apply (failing_fragment_aborts sampleRuntime directoryProvider brokenFS
           "/conf" brokenTree None (DecodeError "garbage")).
  - reflexivity.
  - vm_compute. right; left.
Defined.

(** The error the walk returns on the tree with the rejected fragment is
    the decoder's, wrapped by the subdirectory; the fragment after it is
    not merged. *)
Example broken_tree_result :
  ∃ cfg lg,
    loadFileConfigFromDirectory sampleRuntime directoryProvider brokenFS
      "/conf" None =
      Some ((Some cfg,
             Some (UnableToLoadSubdirectory "sub" (DecodeError "garbage"))), lg)
    ∧ Backends cfg = Some {[ "X" := 1%N ]} ∧ Frontends cfg = Some ∅.
Proof.
  eexists _, _. split; [vm_compute; reflexivity|]. split; vm_compute; reflexivity.
Qed.

(** ** Name collisions *)

Lemma occurrences_app line (l1 l2 : list logLine) :
  occurrences line (l1 ++ l2) = (occurrences line l1 + occurrences line l2)%nat.
Proof. unfold occurrences. by rewrite filter_app, length_app. Qed.

Lemma occurrences_none line (lg : list logLine) :
  Forall (fun l => l ≠ line) lg → occurrences line lg = 0%nat.
Proof.
  unfold occurrences. induction 1 as [|l lg Hl _ IH]; [done|].
  by rewrite filter_cons_False.
Qed.

Lemma occurrences_fmap (f : string → logLine) `{!Inj (=) (=) f} name
    (names : list string) :
  occurrences (f name) (f <$> names) =
    length (filter (fun k => k = name) names).
Proof.
  unfold occurrences. induction names as [|k names IH]; [done|].
  rewrite fmap_cons, !filter_cons.
  destruct (decide (k = name)) as [->|Hne].
  - rewrite decide_True by done. simpl. by rewrite IH.
  - rewrite decide_False; [done|]. intros ?. by apply Hne, (inj f).
Qed.

Lemma filter_eq_NoDup (names : list string) name :
  NoDup names → name ∈ names →
  length (filter (fun k => k = name) names) = 1%nat.
Proof.
  induction 1 as [|k names Hk Hnd IH]; intros Hin.
  { by apply elem_of_nil in Hin. }
  rewrite filter_cons. destruct (decide (k = name)) as [->|Hne].
  - simpl. f_equal. apply length_zero_iff_nil.
    destruct (filter _ names) as [|k' rest] eqn:Hf; [done|].
    assert (k' ∈ filter (fun k => k = name) names) as Hk'
      by (rewrite Hf; left).
    apply list_elem_of_filter in Hk' as [-> ?]. done.
  - apply IH. by apply elem_of_cons in Hin as [->|?].
Qed.

#[local] Instance WarnBackendAlreadyConfigured_inj :
  Inj (=) (=) WarnBackendAlreadyConfigured.
Proof. by intros ?? [=]. Qed.

#[local] Instance WarnFrontendAlreadyConfigured_inj :
  Inj (=) (=) WarnFrontendAlreadyConfigured.
Proof. by intros ?? [=]. Qed.

(** A colliding name is among the collisions, once. *)
Lemma collisions_once (rt : GoRuntime) (acc : gmap string ptr)
    (frag : option (gmap string ptr)) name :
  is_Some (acc !! name) → is_Some (frag ≫= (.!! name)) →
  length (filter (fun k => k = name) (collisions rt acc frag)) = 1%nat.
Proof.
  intros Hacc [b Hb]. apply filter_eq_NoDup.
  - apply NoDup_filter, range_of_NoDup.
  - apply list_elem_of_filter. split; [done|].
    destruct frag as [g|]; [|done]. simpl in *.
    apply list_elem_of_fmap. exists (name, b). split; [done|].
    rewrite (range_map_perm rt g). by apply elem_of_map_to_list.
Qed.

(** The visits depend on the runtime through its joins only. *)
Lemma visits_sameJoins (rt rt' : GoRuntime) (p : Provider) (n : node) :
  sameJoins rt rt' →
  ∀ directory, visits rt p directory n = visits rt' p directory n.
Proof.
  intros [Hpath Hfile].
  induction n as [content| |fileList IH] using node_tree_ind;
    intros directory; [done..|].
  cbn [visits]. induction IH as [|[name child] rest Hchild _ IHrest]; [done|].
  cbn [visitsOfList fst snd] in *.
  by rewrite IHrest, Hchild, Hpath, Hfile.
Qed.

(** The maps and the outcome of the walk do not depend on the order in
    which [range] visits maps. *)
Lemma walk_same_maps (rt rt' : GoRuntime) (p : Provider) (fs : filesystem)
    (directory : string) :
  sameJoins rt rt' →
  ∃ cfg cfg' err err' lg lg',
    loadFileConfigFromDirectory rt p fs directory None = Some ((cfg, err), lg)
    ∧ loadFileConfigFromDirectory rt' p fs directory None
      = Some ((cfg', err'), lg')
    ∧ Backends <$> cfg = Backends <$> cfg'
    ∧ Frontends <$> cfg = Frontends <$> cfg'
    ∧ (err = None ↔ err' = None).
Proof.
  intros Hjoins. unfold loadFileConfigFromDirectory.
  destruct (fs directory) as [[content|[fileList|]]|];
    try by eexists _, _, _, _, _, _.
  destruct (loadDirectoryOf_nil rt p directory fileList)
    as (cfg & err & lg & -> & HB & HF & Hend).
  destruct (loadDirectoryOf_nil rt' p directory fileList)
    as (cfg' & err' & lg' & -> & HB' & HF' & Hend').
  rewrite <- (visits_sameJoins rt rt') in HB', HF', Hend' by done.
  exists (Some cfg), (Some cfg'), err, err', lg, lg'. simpl.
  rewrite HB, HB', HF, HF'. repeat split; try done.
  - intros ->. unfold endsWith in *.
    destruct (firstFailure _); [by destruct Hend as (? & ? & _)|done].
  - intros ->. unfold endsWith in *.
    destruct (firstFailure _); [by destruct Hend' as (? & ? & _)|done].
Qed.

(** C2: the fragment [frag] is merged into an accumulator whose maps are
    [B] and [F].  The merge gives the same maps under any order of
    [range]; a backend name the accumulator already has keeps the
    accumulator's entry, whatever the fragment gives that name, and is
    warned about once; so for frontend names.  A second run of the whole
    walk over the same file system, whatever its order of [range], returns
    the same maps. *)
Theorem collision_keeps_first (rt rt' : GoRuntime) (frag cfg : Configuration)
    (B F : gmap string ptr) (tls : gset ptr) (lg : list logLine) :
  Backends cfg = Some B → Frontends cfg = Some F →
  ∃ cfg' tls1 emitted tls2 emitted',
    mergeFragment rt (Some frag) (Some cfg) tls lg =
      Some ((Some cfg', tls1), lg ++ emitted)
    ∧ mergeFragment rt' (Some frag) (Some cfg) tls lg =
        Some ((Some cfg', tls2), lg ++ emitted')
    ∧ (∀ name b,
         B !! name = Some b → is_Some (Backends frag ≫= (.!! name)) →
         Backends cfg' ≫= (.!! name) = Some b
         ∧ occurrences (WarnBackendAlreadyConfigured name) emitted = 1%nat)
    ∧ (∀ name f,
         F !! name = Some f → is_Some (Frontends frag ≫= (.!! name)) →
         Frontends cfg' ≫= (.!! name) = Some f
         ∧ occurrences (WarnFrontendAlreadyConfigured name) emitted = 1%nat)
    ∧ (∀ p fs directory, sameJoins rt rt' →
         ∃ c c' err err' l l',
           loadFileConfigFromDirectory rt p fs directory None
             = Some ((c, err), l)
           ∧ loadFileConfigFromDirectory rt' p fs directory None
             = Some ((c', err'), l')
           ∧ Backends <$> c = Backends <$> c'
           ∧ Frontends <$> c = Frontends <$> c'
           ∧ (err = None ↔ err' = None)).
Proof.
  intros HB HF.
  destruct (mergeFragment_spec rt frag cfg B F tls lg HB HF)
    as (tls1 & wT & Hrt & HwT).
  destruct (mergeFragment_spec rt' frag cfg B F tls lg HB HF)
    as (tls2 & wT' & Hrt' & _).
  eexists _, tls1, _, tls2, _. split; [exact Hrt|]. split; [exact Hrt'|].
  split; [|split].
  - intros name b Hb Hfrag. split.
    { pose proof (mergedWith_lookup B (Backends frag) name) as Hl.
      rewrite Hb in Hl. exact Hl. }
    rewrite !occurrences_app, occurrences_fmap.
    rewrite collisions_once; [|by rewrite Hb|done].
    rewrite (occurrences_none _ (_ <$> _)), (occurrences_none _ wT); [done| |].
    + eapply Forall_impl; [exact HwT|]. by intros ? [? ->].
    + by apply Forall_fmap, Forall_true.
    + apply _.
  - intros name f Hf Hfrag. split.
    { pose proof (mergedWith_lookup F (Frontends frag) name) as Hl.
      rewrite Hf in Hl. exact Hl. }
    rewrite !occurrences_app, occurrences_fmap.
    rewrite collisions_once; [|by rewrite Hf|done].
    rewrite (occurrences_none _ (_ <$> _)), (occurrences_none _ wT); [done| |].
    + eapply Forall_impl; [exact HwT|]. by intros ? [? ->].
    + by apply Forall_fmap, Forall_true.
    + apply _.
  - intros p fs directory Hjoins. by apply walk_same_maps.
Qed.

Lemma collision_keeps_first_witness :
  ∃ cfg' tls1 emitted tls2 emitted',
    mergeFragment sampleRuntime (Some fragmentX) (Some accumulatorX) ∅ [] =
      Some ((Some cfg', tls1), [] ++ emitted)
    ∧ mergeFragment reverseRuntime (Some fragmentX) (Some accumulatorX) ∅ [] =
        Some ((Some cfg', tls2), [] ++ emitted')
    ∧ (∀ name b,
         ({[ "X" := 1%N ]} : gmap string N) !! name = Some b →
         is_Some (Backends fragmentX ≫= (.!! name)) →
         Backends cfg' ≫= (.!! name) = Some b
         ∧ occurrences (WarnBackendAlreadyConfigured name) emitted = 1%nat)
    ∧ (∀ name f,
         (∅ : gmap string N) !! name = Some f →
         is_Some (Frontends fragmentX ≫= (.!! name)) →
         Frontends cfg' ≫= (.!! name) = Some f
         ∧ occurrences (WarnFrontendAlreadyConfigured name) emitted = 1%nat)
    ∧ (∀ p fs directory, sameJoins sampleRuntime reverseRuntime →
         ∃ c c' err err' l l',
           loadFileConfigFromDirectory sampleRuntime p fs directory None
             = Some ((c, err), l)
           ∧ loadFileConfigFromDirectory reverseRuntime p fs directory None
             = Some ((c', err'), l')
           ∧ Backends <$> c = Backends <$> c'
           ∧ Frontends <$> c = Frontends <$> c'
           ∧ (err = None ↔ err' = None)).
Proof.
  apply (collision_keeps_first sampleRuntime reverseRuntime fragmentX
           accumulatorX {[ "X" := 1%N ]} ∅ ∅ []); reflexivity.
Defined.

(** The backend [X] of the accumulator stays at its address, the entry of
    the fragment is dropped, and one warning is logged. *)
Example collision_result :
  ∃ tls,
    mergeFragment sampleRuntime (Some fragmentX) (Some accumulatorX) ∅ [] =
      Some ((Some accumulatorX, tls), [WarnBackendAlreadyConfigured "X"]).
Proof. eexists. vm_compute. reflexivity. Qed.

(** ** BuildConfiguration *)

Lemma loadFileConfig_ok_inv (p : Provider) filename found parseTemplate cfg :
  loadFileConfig p filename found parseTemplate = (cfg, None) →
  ∃ content r,
    readFile filename found = (content, None)
    ∧ decode p parseTemplate content = (r, None)
    ∧ cfg = if nilOrAllAbsent r then Some emptyConfiguration else r.
Proof.
  unfold loadFileConfig, decode.
  destruct (readFile filename found) as [content [e|]] eqn:Hread; [done|].
  destruct (if parseTemplate then _ else _) as [r [e|]] eqn:Hdec; [done|].
  intros H. exists content, r. split; [done|]. split; [done|].
  by destruct (nilOrAllAbsent r); injection H as <-.
Qed.

(** [loadFileConfigFromDirectory], called with a nil accumulator, does
    not panic, and when it succeeds the maps it returns are not nil. *)
Lemma loadFileConfigFromDirectory_nil (rt : GoRuntime) (p : Provider)
    (fs : filesystem) (directory : string) :
  ∃ cfg err lg,
    loadFileConfigFromDirectory rt p fs directory None = Some ((cfg, err), lg)
    ∧ (err = None →
       ∃ c, cfg = Some c ∧ is_Some (Backends c) ∧ is_Some (Frontends c)).
Proof.
  unfold loadFileConfigFromDirectory.
  destruct (fs directory) as [[content|[fileList|]]|];
    try by eexists _, _, _.
  destruct (loadDirectoryOf_nil rt p directory fileList)
    as (cfg & err & lg & -> & HB & HF & _).
  exists (Some cfg), err, lg. split; [done|]. intros _.
  exists cfg. by rewrite HB, HF.
Qed.

(** [BuildConfiguration] does not panic. *)
Lemma BuildConfiguration_total (rt : GoRuntime) (p : Provider)
    (fs : filesystem) :
  ∃ cfg err lg, BuildConfiguration rt p fs = Some ((cfg, err), lg).
Proof.
  unfold BuildConfiguration.
  destruct (0 <? String.length (Directory p))%nat.
  { destruct (loadFileConfigFromDirectory_nil rt p fs (Directory p))
      as (cfg & err & lg & -> & _). by eexists _, _, _. }
  destruct (0 <? String.length (Filename (base p)))%nat.
  { destruct (loadFileConfig _ _ _ _) as [cfg err]. by eexists _, _, _. }
  destruct (0 <? String.length (TraefikFile p))%nat.
  { destruct (loadFileConfig _ _ _ _) as [cfg err]. by eexists _, _, _. }
  by eexists _, _, _.
Qed.

(** C3, as amended: a successful [BuildConfiguration] returns a
    configuration, not nil.  With a [Directory], its [Backends] and
    [Frontends] maps are not nil.  Without, the configuration comes from
    [loadFileConfig]: its maps are empty and not nil when the decoder
    returned nil or a result whose three containers are all absent;
    otherwise it is the very result of the decoder, whose absent maps stay
    nil. *)
Theorem BuildConfiguration_maps (rt : GoRuntime) (p : Provider)
    (fs : filesystem) (cfg : option Configuration) (lg : list logLine) :
  BuildConfiguration rt p fs = Some ((cfg, None), lg) →
  ∃ c, cfg = Some c
    ∧ (Directory p ≠ "" → is_Some (Backends c) ∧ is_Some (Frontends c))
    ∧ (Directory p = "" →
       ∃ filename parseTemplate content r,
         readFile filename (fs filename) = (content, None)
         ∧ decode p parseTemplate content = (r, None)
         ∧ (nilOrAllAbsent r = true →
            Backends c = Some ∅ ∧ Frontends c = Some ∅)
         ∧ (nilOrAllAbsent r = false → r = Some c)).
Proof.
  unfold BuildConfiguration.
  destruct (0 <? String.length (Directory p))%nat eqn:Hdir.
  { apply length_pos_iff in Hdir. intros Hload.
    destruct (loadFileConfigFromDirectory_nil rt p fs (Directory p))
      as (cfg0 & err & lg0 & Heq & Hok).
    rewrite Heq in Hload. injection Hload as -> -> ->.
    destruct (Hok eq_refl) as (c & -> & HB & HF).
    exists c. by repeat split. }
  assert (Directory p = "") as Hnodir.
  { destruct (Directory p); [done|discriminate]. }
  assert (∀ filename parseTemplate,
            loadFileConfig p filename (fs filename) parseTemplate = (cfg, None) →
            ∃ c, cfg = Some c
              ∧ (Directory p ≠ "" → is_Some (Backends c) ∧ is_Some (Frontends c))
              ∧ (Directory p = "" →
                 ∃ filename parseTemplate content r,
                   readFile filename (fs filename) = (content, None)
                   ∧ decode p parseTemplate content = (r, None)
                   ∧ (nilOrAllAbsent r = true →
                      Backends c = Some ∅ ∧ Frontends c = Some ∅)
                   ∧ (nilOrAllAbsent r = false → r = Some c))) as Hfile.
  { intros filename parseTemplate Hload.
    destruct (loadFileConfig_ok_not_nil _ _ _ _ _ Hload) as [c ->].
    exists c. split; [done|]. split; [done|]. intros _.
    destruct (loadFileConfig_ok_inv _ _ _ _ _ Hload)
      as (content & r & Hread & Hdec & Hc).
    exists filename, parseTemplate, content, r.
    split; [done|]. split; [done|]. split.
    - intros Hr. rewrite Hr in Hc. by injection Hc as ->.
    - intros Hr. by rewrite Hr in Hc. }
  destruct (0 <? String.length (Filename (base p)))%nat.
  { intros [= Hload _]. by eapply Hfile. }
  destruct (0 <? String.length (TraefikFile p))%nat.
  { intros [= Hload _]. by eapply Hfile. }
  done.
Qed.

Lemma BuildConfiguration_maps_witness :
  ∃ c, Some (mkConfiguration (Some {[ "X" := 1%N ]}) None None) = Some c
    ∧ (Directory fileProvider ≠ "" →
       is_Some (Backends c) ∧ is_Some (Frontends c))
    ∧ (Directory fileProvider = "" →
       ∃ filename parseTemplate content r,
         readFile filename (partialFS filename) = (content, None)
         ∧ decode fileProvider parseTemplate content = (r, None)
         ∧ (nilOrAllAbsent r = true →
            Backends c = Some ∅ ∧ Frontends c = Some ∅)
         ∧ (nilOrAllAbsent r = false → r = Some c)).
Proof.
  apply (BuildConfiguration_maps sampleRuntime fileProvider partialFS
           (Some (mkConfiguration (Some {[ "X" := 1%N ]}) None None)) []).
  reflexivity.
Defined.

(** C3, as stated, fails: the file defines a backend and no frontend, the
    build succeeds, and the [Frontends] map of the configuration returned
    is nil. *)
Lemma BuildConfiguration_frontends_nil :
  ¬ (∀ cfg lg,
       BuildConfiguration sampleRuntime fileProvider partialFS
         = Some ((cfg, None), lg) →
       ∃ c, cfg = Some c ∧ is_Some (Backends c) ∧ is_Some (Frontends c)).
Proof.
  intros H.
  destruct (H (Some (mkConfiguration (Some {[ "X" := 1%N ]}) None None)) [])
    as (c & [= <-] & _ & [F HF]); [reflexivity|]. discriminate HF.
Qed.

(** ** The reload callback *)

(** C8: when [os.Stat] fails on the watch target, [watcherCallback] logs
    one debug line and sends nothing; when the build fails, it logs what
    the build logged and the error, and sends nothing; when the build
    succeeds, it sends the configuration built.  It does not panic, and
    the channel it leaves is the channel it found, unless the build
    succeeded, in which case one message was added. *)
Theorem watcherCallback_publishes (rt : GoRuntime) (p : Provider)
    (fs : filesystem) (w : World) :
  (fs (watchItem p) = None →
   watcherCallback rt p fs w =
     Some (mkWorld (channel w)
             (logs w ++ [DebugUnableToGetModifications (watchItem p)
                           (SysError "stat" (watchItem p))])))
  ∧ (∀ cfg err lg,
       is_Some (fs (watchItem p)) →
       BuildConfiguration rt p fs = Some ((cfg, Some err), lg) →
       watcherCallback rt p fs w =
         Some (mkWorld (channel w)
                 (logs w ++ lg ++ [ErrorDuringWatcherCallback err])))
  ∧ (∀ cfg lg,
       is_Some (fs (watchItem p)) →
       BuildConfiguration rt p fs = Some ((cfg, None), lg) →
       watcherCallback rt p fs w =
         Some (mkWorld (channel w ++ [mkConfigMessage "file" cfg])
                 (logs w ++ lg)))
  ∧ ∃ w', watcherCallback rt p fs w = Some w'
      ∧ (channel w' = channel w
         ∨ ∃ cfg lg,
             is_Some (fs (watchItem p))
             ∧ BuildConfiguration rt p fs = Some ((cfg, None), lg)
             ∧ channel w' = channel w ++ [mkConfigMessage "file" cfg]).
Proof.
  unfold watcherCallback. repeat split.
  - by intros ->.
  - intros cfg err lg [n ->] ->. done.
  - intros cfg lg [n ->] ->. done.
  - destruct (fs (watchItem p)) as [n|] eqn:Hstat.
    + destruct (BuildConfiguration_total rt p fs) as (cfg & [err|] & lg & Hbuild);
        rewrite Hbuild; simpl.
      * eexists. split; [done|]. by left.
      * eexists. split; [done|]. right. by exists cfg, lg.
    + eexists. split; [done|]. by left.
Qed.

(** The callback on three file systems: the watch target is gone, a
    fragment is rejected, the tree loads. *)
Example watcherCallback_stat_fails :
  watcherCallback sampleRuntime fileProvider sampleFS (mkWorld [] []) =
    Some (mkWorld []
            [DebugUnableToGetModifications "/etc/app.toml"
               (SysError "stat" "/etc/app.toml")]).
Proof. vm_compute. reflexivity. Qed.

Example watcherCallback_build_fails :
  watcherCallback sampleRuntime directoryProvider brokenFS (mkWorld [] []) =
    Some (mkWorld []
            [ErrorDuringWatcherCallback
               (UnableToLoadSubdirectory "sub" (DecodeError "garbage"))]).
Proof. vm_compute. reflexivity. Qed.

Example watcherCallback_build_succeeds :
  ∃ cfg,
    watcherCallback sampleRuntime directoryProvider sampleFS (mkWorld [] []) =
      Some (mkWorld [mkConfigMessage "file" (Some cfg)] [])
    ∧ Backends cfg = Some {[ "X" := 1%N; "Y" := 2%N ]}
    ∧ Frontends cfg = Some {[ "web" := 3%N ]}
    ∧ TLS cfg = None.
Proof.
  eexists. split; [vm_compute; reflexivity|]. repeat split; vm_compute; reflexivity.
Qed.

(** ** Paths *)

Lemma append_cons (c : ascii) (a b : string) :
  String c a +:+ b = String c (a +:+ b).
Proof. reflexivity. Qed.

Lemma append_empty_l (b : string) : "" +:+ b = b.
Proof. reflexivity. Qed.

Lemma length_append (a b : string) :
  String.length (a +:+ b) = (String.length a + String.length b)%nat.
Proof.
  induction a as [|c a IH]; [done|]. rewrite append_cons. simpl. by rewrite IH.
Qed.

Lemma append_assoc (a b c : string) : (a +:+ b) +:+ c = a +:+ (b +:+ c).
Proof.
  induction a as [|x a IH]; [done|]. rewrite !append_cons. by f_equal.
Qed.

Lemma append_cancel_l (a x y : string) : a +:+ x = a +:+ y → x = y.
Proof.
  induction a as [|c a IH]; [done|]. rewrite !append_cons.
  intros [= H]. by apply IH.
Qed.

Lemma length_substring_0 (s : string) (k : nat) :
  (k ≤ String.length s)%nat → String.length (String.substring 0 k s) = k.
Proof.
  revert k. induction s as [|c s IH]; intros [|k] Hk; simpl in *; try done.
  - lia.
  - rewrite IH; [done|lia].
Qed.

(** Trimming the separator shortens a path by one character at most. *)
Lemma length_TrimSuffix (s : string) :
  (String.length s ≤ String.length (strings_TrimSuffix s "/") + 1)%nat.
Proof.
  unfold strings_TrimSuffix, strings_HasSuffix.
  destruct (_ <=? _)%nat eqn:Hlen; simpl; [|lia].
  apply Nat.leb_le in Hlen. simpl in Hlen.
  destruct (bool_decide _); [|lia].
  rewrite length_substring_0; simpl; lia.
Qed.

(** The last character of a name is its last character behind any
    prefix. *)
Lemma substring_last_append (y name : string) :
  name ≠ "" →
  String.substring (String.length (y +:+ name) - 1) 1 (y +:+ name) =
    String.substring (String.length name - 1) 1 name.
Proof.
  intros Hname. induction y as [|c y IH]; [done|]. rewrite append_cons.
  simpl. rewrite Nat.sub_0_r.
  assert (String.length (y +:+ name) = S (String.length (y +:+ name) - 1))
    as Hlen.
  { rewrite length_append. destruct name; [done|]. simpl. lia. }
  rewrite Hlen. exact IH.
Qed.

Lemma substring_last_noSlash (name : string) :
  name ≠ "" → noSlash name = true →
  String.substring (String.length name - 1) 1 name ≠ "/".
Proof.
  induction name as [|c name IH]; [done|]. intros _ Hns. simpl in Hns.
  apply andb_true_iff in Hns as [Hc Hns].
  apply negb_true_iff, bool_decide_eq_false in Hc.
  destruct name as [|c' name'].
  - simpl. by intros [= ->].
  - specialize (IH ltac:(done) Hns).
    replace (String.length (String c (String c' name')) - 1)%nat
      with (S (String.length name')) by (simpl; lia).
    replace (String.length (String c' name') - 1)%nat
      with (String.length name') in IH by (simpl; lia).
    exact IH.
Qed.

(** A path that ends with a name of an entry is not trimmed. *)
Lemma TrimSuffix_name (y name : string) :
  validName name = true →
  strings_TrimSuffix (y +:+ name) "/" = y +:+ name.
Proof.
  intros [Hne Hns]%andb_true_iff.
  apply negb_true_iff, bool_decide_eq_false in Hne.
  unfold strings_TrimSuffix, strings_HasSuffix.
  rewrite (bool_decide_eq_false_2 (String.substring _ _ _ = "/")).
  - by rewrite andb_false_r.
  - change (String.length "/") with 1%nat.
    rewrite substring_last_append by done.
    by apply substring_last_noSlash.
Qed.

Lemma subPath_not_trimmed (rootDir name : string) :
  validName name = true →
  strings_TrimSuffix (subPath rootDir name) "/" = subPath rootDir name.
Proof.
  intros Hname. unfold subPath.
  rewrite <- append_assoc. by apply TrimSuffix_name.
Qed.

(** Two names followed by nothing or by a separator: when the strings
    are the same the names are. *)
Lemma name_prefix_unique (a b s t : string) :
  noSlash a = true → noSlash b = true →
  emptyOrSlash s → emptyOrSlash t →
  a +:+ s = b +:+ t → a = b.
Proof.
  revert b. induction a as [|c a IH]; intros [|c' b] Ha Hb Hs Ht Heq;
    rewrite ?append_cons, ?append_empty_l in Heq; simpl in *; try done.
  - apply andb_true_iff in Hb as [Hc _].
    apply negb_true_iff, bool_decide_eq_false in Hc.
    destruct Hs as [->|[s' ->]]; [done|].
    rewrite append_cons in Heq. by injection Heq as <-.
  - apply andb_true_iff in Ha as [Hc _].
    apply negb_true_iff, bool_decide_eq_false in Hc.
    destruct Ht as [->|[t' ->]]; [done|].
    rewrite append_cons in Heq. by injection Heq as ->.
  - apply andb_true_iff in Ha as [_ Ha]. apply andb_true_iff in Hb as [_ Hb].
    injection Heq as -> Heq. f_equal. by eapply IH.
Qed.

(** The path of an entry, whatever follows it, is not the path of the
    directory. *)
Lemma subPath_longer (rootDir name s : string) :
  validName name = true → subPath rootDir name +:+ s ≠ rootDir.
Proof.
  intros [Hne _]%andb_true_iff Heq.
  apply negb_true_iff, bool_decide_eq_false in Hne.
  pose proof (length_TrimSuffix rootDir) as Hlen.
  rewrite <- Heq in Hlen at 1. unfold subPath in Hlen.
  rewrite !length_append in Hlen. simpl in Hlen.
  destruct name; [done|]. simpl in Hlen. lia.
Qed.

(** ** The directories of a tree *)

Lemma append_empty_r (s : string) : s +:+ "" = s.
Proof.
  induction s as [|c s IH]; [done|]. rewrite append_cons. by f_equal.
Qed.

Lemma elem_of_directoriesOfList (rootDir : string)
    (fileList : list (string * node)) (x : string * node) :
  x ∈ directoriesOfList (fun d c => directoriesOf d c) rootDir fileList ↔
  ∃ item, item ∈ fileList ∧ x ∈ directoriesOf (subPath rootDir item.1) item.2.
Proof.
  induction fileList as [|item rest IH]; cbn [directoriesOfList].
  - split; [by intros ?%elem_of_nil|]. by intros (? & ?%elem_of_nil & _).
  - rewrite elem_of_app, IH. split.
    + intros [H|(item' & Hin & H)].
      * exists item. split; [left|done].
      * exists item'. split; [by right|done].
    + intros (item' & [->|Hin]%elem_of_cons & H); [by left|].
      right. by exists item'.
Qed.

Lemma elem_of_subtree (rootDir : string) (n : node) (k : string) :
  k ∈ subtree rootDir n ↔ ∃ d, (k, d) ∈ directoriesOf rootDir n.
Proof.
  unfold subtree. rewrite list_elem_of_fmap. split.
  - intros ([k' d] & -> & H). by exists d.
  - intros [d H]. by exists (k, d).
Qed.

Lemma wellNamed_Dir (fileList : list (string * node)) :
  wellNamed (Dir (Some fileList)) = true ↔
  NoDup fileList.*1
  ∧ Forall (fun item => validName item.1 = true ∧ wellNamed item.2 = true)
      fileList.
Proof.
  cbn [wellNamed]. rewrite andb_true_iff, bool_decide_eq_true.
  rewrite forallb_forall, Forall_forall.
  split; intros [Hnd Hall]; (split; [done|]); intros item Hin.
  - apply andb_true_iff, Hall. by apply list_elem_of_In.
  - apply andb_true_iff, Hall. by apply list_elem_of_In.
Qed.

(** Below a path that is not trimmed, every path is the path itself
    followed by nothing or by a separator. *)
Lemma subtree_prefix (n : node) :
  ∀ c k,
    strings_TrimSuffix c "/" = c → wellNamed n = true →
    k ∈ subtree c n → ∃ s, k = c +:+ s ∧ emptyOrSlash s.
Proof.
  induction n as [content| |fileList IH] using node_tree_ind;
    intros c k Hc Hwf Hk.
  - by apply elem_of_nil in Hk.
  - apply list_elem_of_singleton in Hk as ->. exists "".
    split; [by rewrite append_empty_r|by left].
  - apply wellNamed_Dir in Hwf as [_ Hwf].
    unfold subtree in Hk. cbn [directoriesOf] in Hk. rewrite fmap_cons in Hk.
    apply elem_of_cons in Hk as [->|Hk].
    { exists "". split; [by rewrite append_empty_r|by left]. }
    apply list_elem_of_fmap in Hk as ([k' d] & -> & Hk).
    apply elem_of_directoriesOfList in Hk as (item & Hin & Hk).
    rewrite Forall_forall in IH, Hwf.
    destruct (Hwf item Hin) as [Hname Hwfi].
    destruct (IH item Hin (subPath c item.1) k') as (s & -> & Hs);
      [by apply subPath_not_trimmed|done|apply elem_of_subtree; by exists d|].
    unfold subPath. rewrite Hc. exists ("/" +:+ item.1 +:+ s).
    split; [|right; by eexists].
    by rewrite !append_assoc.
Qed.

(** The paths below the entries of a listing: each is the path of an
    entry followed by nothing or by a separator. *)
Lemma entry_paths (rootDir : string) (fileList : list (string * node))
    (k : string) :
  wellNamed (Dir (Some fileList)) = true →
  k ∈ (directoriesOfList (fun d c => directoriesOf d c) rootDir fileList).*1 →
  ∃ item s,
    item ∈ fileList ∧ validName item.1 = true
    ∧ k = subPath rootDir item.1 +:+ s ∧ emptyOrSlash s.
Proof.
  intros [_ Hwf]%wellNamed_Dir ([k' d] & -> & Hk)%list_elem_of_fmap.
  apply elem_of_directoriesOfList in Hk as (item & Hin & Hk).
  rewrite Forall_forall in Hwf. destruct (Hwf item Hin) as [Hname Hwfi].
  destruct (subtree_prefix item.2 (subPath rootDir item.1) k') as (s & -> & Hs);
    [by apply subPath_not_trimmed|done|apply elem_of_subtree; by exists d|].
  by exists item, s.
Qed.

(** Paths below two entries of a directory are paths below one entry. *)
Lemma sibling_paths (rootDir name1 name2 s1 s2 : string) :
  validName name1 = true → validName name2 = true →
  emptyOrSlash s1 → emptyOrSlash s2 →
  subPath rootDir name1 +:+ s1 = subPath rootDir name2 +:+ s2 →
  name1 = name2.
Proof.
  intros [_ H1]%andb_true_iff [_ H2]%andb_true_iff Hs1 Hs2.
  unfold subPath. rewrite !append_assoc.
  intros Heq%append_cancel_l%append_cancel_l.
  exact (name_prefix_unique _ _ _ _ H1 H2 Hs1 Hs2 Heq).
Qed.

(** The loop of [getDirectoriesRecursively] over a listing whose entries
    are as [recordsTree] says. *)
Lemma rangeSubDirectories_records (fileList : list (string * node)) :
  Forall (fun item => recordsTree item.2) fileList →
  forallb (fun item => listable item.2) fileList = true →
  ∀ rootDir directories wd,
    let below :=
      directoriesOfList (fun d c => directoriesOf d c) rootDir fileList in
    ∃ wd',
      rangeSubDirectories (fun d c w => getDirectoriesOf d c w) rootDir
        fileList directories wd = (inl (directories ++ below.*1), wd')
      ∧ (∀ k, k ∉ below.*1 → wd' !! k = wd !! k)
      ∧ (wellNamed (Dir (Some fileList)) = true →
         ∀ k d, (k, d) ∈ below → wd' !! k = Some (subtree k d)).
Proof.
  induction 1 as [|[name child] rest Hchild _ IH];
    intros Hlist rootDir directories wd below; subst below.
  { exists wd. cbn. rewrite app_nil_r. split; [done|]. split; [done|].
    by intros _ k d ?%elem_of_nil. }
  cbn [forallb snd] in Hlist. apply andb_true_iff in Hlist as [Hl Hlrest].
  cbn [rangeSubDirectories directoriesOfList fst snd] in *.
  destruct (IsDir child) eqn:Hdir.
  - destruct (Hchild (subPath rootDir name) wd Hl)
      as (wd1 & -> & Hout1 & Hin1).
    destruct (IH Hlrest rootDir (directories ++ subtree (subPath rootDir name) child) wd1)
      as (wd' & -> & Hout & Hin).
    exists wd'. split; [by rewrite fmap_app, app_assoc|]. split.
    + intros k Hk. rewrite fmap_app, not_elem_of_app in Hk.
      destruct Hk as [Hk1 Hk2]. by rewrite Hout, Hout1.
    + intros Hwf k d Hkd.
      pose proof Hwf as [Hnd Hall]%wellNamed_Dir.
      rewrite fmap_cons in Hnd. apply NoDup_cons in Hnd as [Hname Hnd].
      apply Forall_cons in Hall as [[Hvalid Hwfc] Hall]. simpl in *.
      assert (wellNamed (Dir (Some rest)) = true) as Hwfrest
        by by apply wellNamed_Dir.
      apply elem_of_app in Hkd as [Hkd|Hkd]; [|by apply Hin].
      rewrite Hout; [by apply Hin1|].
      intros (item & s' & Hitem & Hvalid' & Hk & Hs')%entry_paths; [|done].
      destruct (subtree_prefix child (subPath rootDir name) k) as (s & Hk' & Hs);
        [by apply subPath_not_trimmed|done|apply elem_of_subtree; by exists d|].
      apply Hname. rewrite Hk' in Hk.
      rewrite (sibling_paths _ _ _ _ _ Hvalid Hvalid' Hs Hs' Hk).
      apply list_elem_of_fmap. by exists item.
  - destruct child as [content|listing]; [|done]. cbn [directoriesOf app].
    destruct (IH Hlrest rootDir directories wd) as (wd' & -> & Hout & Hin).
    exists wd'. split; [done|]. split; [done|]. intros Hwf. apply Hin.
    apply wellNamed_Dir in Hwf as [Hnd Hall]. apply wellNamed_Dir.
    rewrite fmap_cons in Hnd. apply NoDup_cons in Hnd as [_ Hnd].
    by apply Forall_cons in Hall as [_ Hall].
Qed.

(** Below every node, [getDirectoriesOf] is as [recordsTree] says. *)
Lemma getDirectoriesOf_records (n : node) : recordsTree n.
Proof.
  induction n as [content| |fileList IH] using node_tree_ind;
    intros rootDir wd Hlist.
  - exists wd. split; [done|]. split; [done|]. by intros _ k d ?%elem_of_nil.
  - done.
  - destruct (rangeSubDirectories_records fileList IH Hlist rootDir [rootDir] wd)
      as (wd' & Hrange & Hout & Hin).
    cbn [getDirectoriesOf]. rewrite Hrange. eexists. split; [done|]. split.
    + intros k Hk. unfold subtree in Hk. cbn [directoriesOf] in Hk.
      rewrite fmap_cons in Hk. apply not_elem_of_cons in Hk as [Hne Hk].
      rewrite lookup_insert_ne by done. by apply Hout.
    + intros Hwf k d Hkd. apply elem_of_cons in Hkd as [Heq|Hkd].
      { injection Heq as Hk Hd. subst k d. by rewrite lookup_insert_eq. }
      rewrite lookup_insert_ne; [by apply Hin|].
      intros <-.
      destruct (entry_paths rootDir fileList rootDir Hwf)
        as (item & s & _ & Hvalid & Hk & _).
      { apply list_elem_of_fmap. by exists (rootDir, d). }
      symmetry in Hk. by apply subPath_longer in Hk.
Qed.

(** When some listing of the tree cannot be read the loop ends with an
    error. *)
Lemma rangeSubDirectories_unreadable (fileList : list (string * node)) :
  Forall (fun item =>
            ∀ rootDir wd, listable item.2 = false →
              ∃ err wd', getDirectoriesOf rootDir item.2 wd
                         = (([], Some err), wd')) fileList →
  forallb (fun item => listable item.2) fileList = false →
  ∀ rootDir directories wd,
    ∃ err wd',
      rangeSubDirectories (fun d c w => getDirectoriesOf d c w) rootDir
        fileList directories wd = (inr err, wd').
Proof.
  induction 1 as [|[name child] rest Hchild _ IH];
    intros Hlist rootDir directories wd; [done|].
  cbn [forallb rangeSubDirectories fst snd] in *.
  destruct (listable child) eqn:Hl.
  - destruct (IsDir child).
    + destruct (getDirectoriesOf_records child (subPath rootDir name) wd Hl)
        as (wd1 & -> & _). by apply IH.
    + by apply IH.
  - destruct child as [content|listing]; [done|]. cbn [IsDir].
    destruct (Hchild (subPath rootDir name) wd eq_refl) as (err & wd' & ->).
    by eexists _, _.
Qed.

Lemma getDirectoriesOf_unreadable (n : node) :
  ∀ rootDir wd,
    listable n = false →
    ∃ err wd', getDirectoriesOf rootDir n wd = (([], Some err), wd').
Proof.
  induction n as [content| |fileList IH] using node_tree_ind;
    intros rootDir wd Hlist; [done|by eexists _, _|].
  destruct (rangeSubDirectories_unreadable fileList IH Hlist rootDir [rootDir] wd)
    as (err & wd' & Hrange).
  cbn [getDirectoriesOf]. rewrite Hrange. by eexists _, _.
Qed.

(** The directories of a tree are directories, and the paths of a tree
    start with its root. *)
Lemma directoriesOf_IsDir (n : node) :
  ∀ rootDir k d, (k, d) ∈ directoriesOf rootDir n → IsDir d = true.
Proof.
  induction n as [content| |fileList IH] using node_tree_ind;
    intros rootDir k d Hkd.
  - by apply elem_of_nil in Hkd.
  - by apply list_elem_of_singleton in Hkd as [= -> ->].
  - cbn [directoriesOf] in Hkd. apply elem_of_cons in Hkd as [[= -> ->]|Hkd];
      [done|].
    apply elem_of_directoriesOfList in Hkd as (item & Hin & Hkd).
    rewrite Forall_forall in IH. by eapply IH.
Qed.

Lemma head_subtree (rootDir : string) (n : node) :
  IsDir n = true → head (subtree rootDir n) = Some rootDir.
Proof. by destruct n as [|[|]]. Qed.

(** [getDirectoriesOf] keeps every recorded list headed by its key, also
    when it fails. *)
Lemma rangeSubDirectories_rootFirst (fileList : list (string * node)) :
  Forall (fun item =>
            ∀ rootDir wd, rootFirst wd →
              rootFirst (getDirectoriesOf rootDir item.2 wd).2) fileList →
  ∀ rootDir directories wd,
    rootFirst wd →
    let r := rangeSubDirectories (fun d c w => getDirectoriesOf d c w)
               rootDir fileList directories wd in
    rootFirst r.2
    ∧ ∀ dirs, r.1 = inl dirs → ∃ more, dirs = directories ++ more.
Proof.
  induction 1 as [|[name child] rest Hchild _ IH];
    intros rootDir directories wd Hwd r; subst r.
  { split; [done|]. intros dirs [= <-]. exists []. by rewrite app_nil_r. }
  cbn [rangeSubDirectories fst snd] in *.
  destruct (IsDir child); [|by apply IH].
  specialize (Hchild (subPath rootDir name) wd Hwd).
  destruct (getDirectoriesOf (subPath rootDir name) child wd)
    as [[subDir [err|]] wd1]; simpl in Hchild.
  { split; [done|]. by intros dirs [=]. }
  destruct (IH rootDir (directories ++ subDir) wd1 Hchild) as [Hroot Hmore].
  split; [exact Hroot|]. intros dirs Hdirs.
  destruct (Hmore dirs Hdirs) as [more ->].
  exists (subDir ++ more). by rewrite app_assoc.
Qed.

Lemma getDirectoriesOf_rootFirst (n : node) :
  ∀ rootDir wd,
    rootFirst wd → rootFirst (getDirectoriesOf rootDir n wd).2.
Proof.
  induction n as [content| |fileList IH] using node_tree_ind;
    intros rootDir wd Hwd; [done..|].
  cbn [getDirectoriesOf].
  destruct (rangeSubDirectories_rootFirst fileList IH rootDir [rootDir] wd Hwd)
    as [Hroot Hmore].
  destruct (rangeSubDirectories _ _ _ _ _) as [[dirs|err] wd']; [|done].
  simpl in *. destruct (Hmore dirs eq_refl) as [more ->].
  by apply rootFirst_insert.
Qed.

(** [getDirectoriesRecursively] keeps the invariant of the map of watched
    directories that the handling of remove events relies on. *)
Lemma getDirectoriesRecursively_rootFirst (p : Provider) (fs : filesystem)
    (rootDir : string) :
  rootFirst (watchedDirectories p) →
  rootFirst (watchedDirectories (getDirectoriesRecursively p fs rootDir).2).
Proof.
  intros Hwd. unfold getDirectoriesRecursively.
  destruct (fs rootDir) as [n|]; [|done].
  pose proof (getDirectoriesOf_rootFirst n rootDir _ Hwd) as H.
  by destruct (getDirectoriesOf rootDir n (watchedDirectories p)).
Qed.

Lemma set_watchedDirectories_same (p : Provider) :
  set_watchedDirectories p (watchedDirectories p) = p.
Proof. by destruct p. Qed.

(** ** getDirectoriesRecursively *)

(** C6, as amended: [getDirectoriesRecursively] fails when the root
    cannot be statted; returns an empty list and no error when the root is
    not a directory; when the root is a directory and the listing of the
    root and of every directory below it can be read, returns the root
    first, followed by every subdirectory, depth first; and fails when
    some listing cannot be read. *)
Theorem getDirectoriesRecursively_lists (p : Provider) (fs : filesystem)
    (rootDir : string) :
  match fs rootDir with
  | None =>
      getDirectoriesRecursively p fs rootDir =
        (([], Some (UnableToStat rootDir (SysError "stat" rootDir))), p)
  | Some (File content) =>
      getDirectoriesRecursively p fs rootDir = (([], None), p)
  | Some (Dir listing) =>
      if listable (Dir listing) then
        ∃ p', getDirectoriesRecursively p fs rootDir =
                ((subtree rootDir (Dir listing), None), p')
              ∧ head (subtree rootDir (Dir listing)) = Some rootDir
      else
        ∃ err p', getDirectoriesRecursively p fs rootDir = (([], Some err), p')
  end.
Proof.
  unfold getDirectoriesRecursively.
  destruct (fs rootDir) as [[content|listing]|]; [|  |done].
  - cbn [getDirectoriesOf]. by rewrite set_watchedDirectories_same.
  - destruct (listable (Dir listing)) eqn:Hlist.
    + destruct (getDirectoriesOf_records (Dir listing) rootDir
                  (watchedDirectories p) Hlist) as (wd' & -> & _).
      eexists. split; [done|]. by apply head_subtree.
    + destruct (getDirectoriesOf_unreadable (Dir listing) rootDir
                  (watchedDirectories p) Hlist) as (err & wd' & ->).
      by eexists _, _.
Qed.

(** The list returned for [/srv]. *)
Example getDirectoriesRecursively_srv :
  (getDirectoriesRecursively srvProvider deepFS "/srv").1 =
    (["/srv"; "/srv/a"; "/srv/a/b"; "/srv/a/c"], None).
Proof. vm_compute. reflexivity. Qed.

(** C6, as stated, fails: [/locked] can be statted and is a directory,
    yet the call returns an error and no list that starts with the
    root. *)
Lemma getDirectoriesRecursively_locked :
  mixedFS "/locked" = Some (Dir None) ∧ IsDir (Dir None) = true
  ∧ ¬ (∃ dirs p',
         getDirectoriesRecursively srvProvider mixedFS "/locked"
           = ((dirs, None), p')
         ∧ head dirs = Some "/locked").
Proof.
  split; [reflexivity|]. split; [reflexivity|].
  intros (dirs & p' & Hcall & _). vm_compute in Hcall. discriminate Hcall.
Qed.

(** ** The map of watched directories after a scan *)

(** C10: after a successful [getDirectoriesRecursively] on a directory
    whose tree is one a file system can hold, the map of watched
    directories has, for every directory of the tree, a key, its path; the
    list recorded there starts with the key and is the listing of that
    directory's own tree; and a remove or rename event for that path makes
    the loop remove the watches of that tree, deepest first, and delete
    its keys. *)
Theorem every_subdirectory_recorded (p : Provider) (fs : filesystem)
    (rootDir : string) (n : node) (dirs : list string) (p' : Provider) :
  fs rootDir = Some n → IsDir n = true → wellNamed n = true →
  getDirectoriesRecursively p fs rootDir = ((dirs, None), p') →
  dirs = subtree rootDir n
  ∧ ∀ k d,
      (k, d) ∈ directoriesOf rootDir n →
      watchedDirectories p' !! k = Some (subtree k d)
      ∧ head (subtree k d) = Some k
      ∧ ∀ callback fs' evt st,
          Name evt = k → provider st = p' → Directory p' ≠ "" →
          Op evt = fsnotify_Remove ∨ Op evt = fsnotify_Rename →
          let st' := onRemoveOrRename evt st in
          handleEvent callback fs' evt st =
            (w ← callback fs' (world st);
             Some (mkLoopState (provider st') (watcher st') w))
          ∧ watcher st' =
              watcher st ++ (WatcherRemove <$> reverse (subtree k d))
          ∧ ∀ k', k' ∈ subtree k d →
                  watchedDirectories (provider st') !! k' = None.
Proof.
  intros Hfs Hdir Hwf. unfold getDirectoriesRecursively. rewrite Hfs.
  destruct (listable n) eqn:Hlist.
  2:{ destruct (getDirectoriesOf_unreadable n rootDir (watchedDirectories p) Hlist)
        as (err & wd' & ->). done. }
  destruct (getDirectoriesOf_records n rootDir (watchedDirectories p) Hlist)
    as (wd' & -> & _ & Hin).
  intros [= <- <-]. split; [done|]. intros k d Hkd.
  specialize (Hin Hwf k d Hkd). split; [exact Hin|].
  split; [by eapply head_subtree, directoriesOf_IsDir|].
  intros callback fs' evt st Hname Hprov Hmode Hop.
  split; [apply handleEvent_remove; [by rewrite Hprov|done]|].
  rewrite (onRemoveOrRename_key evt st (subtree k d))
    by by rewrite Hprov, Hname.
  simpl. split; [done|]. intros k' Hk'.
  rewrite lookup_foldl_delete, decide_True; [done|]. by apply elem_of_reverse.
Qed.

Lemma every_subdirectory_recorded_witness :
  ["/srv"; "/srv/a"; "/srv/a/b"; "/srv/a/c"]
    = subtree "/srv" (Dir (Some deepListing))
  ∧ ∀ k d,
      (k, d) ∈ directoriesOf "/srv" (Dir (Some deepListing)) →
      watchedDirectories (getDirectoriesRecursively srvProvider deepFS "/srv").2
        !! k = Some (subtree k d)
      ∧ head (subtree k d) = Some k
      ∧ ∀ callback fs' evt st,
          Name evt = k →
          provider st = (getDirectoriesRecursively srvProvider deepFS "/srv").2 →
          Directory (getDirectoriesRecursively srvProvider deepFS "/srv").2 ≠ "" →
          Op evt = fsnotify_Remove ∨ Op evt = fsnotify_Rename →
          let st' := onRemoveOrRename evt st in
          handleEvent callback fs' evt st =
            (w ← callback fs' (world st);
             Some (mkLoopState (provider st') (watcher st') w))
          ∧ watcher st' =
              watcher st ++ (WatcherRemove <$> reverse (subtree k d))
          ∧ ∀ k', k' ∈ subtree k d →
                  watchedDirectories (provider st') !! k' = None.
Proof.
  apply (every_subdirectory_recorded srvProvider deepFS "/srv"
           (Dir (Some deepListing)) ["/srv"; "/srv/a"; "/srv/a/b"; "/srv/a/c"]
           (getDirectoriesRecursively srvProvider deepFS "/srv").2).
  - reflexivity.
  - reflexivity.
  - vm_compute. reflexivity.
  - vm_compute. reflexivity.
Defined.

(** A remove event for [/srv/a], a subdirectory that was not registered
    as a root, removes the watches of [/srv/a/c], [/srv/a/b] and [/srv/a]
    and leaves the key [/srv]. *)
Example remove_subdirectory_event :
  let st := mkLoopState (getDirectoriesRecursively srvProvider deepFS "/srv").2
              [] (mkWorld [] []) in
  let st' := onRemoveOrRename (mkEvent "/srv/a" fsnotify_Remove) st in
  watcher st' =
    [WatcherRemove "/srv/a/c"; WatcherRemove "/srv/a/b"; WatcherRemove "/srv/a"]
  ∧ dom (watchedDirectories (provider st')) = {[ "/srv" ]}.
Proof. split; vm_compute; reflexivity. Qed.

(** ** The invariant of the map of watched directories *)

(** Handling an event keeps every recorded list headed by its key. *)
Lemma handleEvent_rootFirst (callback : filesystem → World → option World)
    (fs : filesystem) (evt : Event) (st st' : loopState) :
  rootFirst (watchedDirectories (provider st)) →
  handleEvent callback fs evt st = Some st' →
  rootFirst (watchedDirectories (provider st')).
Proof.
  intros Hwd. unfold handleEvent.
  destruct (String.length (Directory (provider st)) =? 0)%nat.
  { destruct (bool_decide _); [|by intros [= <-]].
    destruct (callback fs (world st)); [|done]. by intros [= <-]. }
  match goal with |- context [callback fs (world ?s)] =>
    assert (rootFirst (watchedDirectories (provider s))) as Hwd';
    [|destruct (callback fs (world s)); [by intros [= <-]|done]] end.
  destruct (_ || _).
  - unfold onRemoveOrRename.
    destruct (_ !! Name evt) as [subDirectories|] eqn:Hkey; [|done].
    rewrite removeSubDirectories_spec by done. simpl.
    by apply rootFirst_foldl_delete.
  - destruct (bool_decide _); [|done]. unfold onCreate.
    pose proof (getDirectoriesRecursively_rootFirst (provider st) fs
                  (Name evt) Hwd) as H.
    by destruct (getDirectoriesRecursively (provider st) fs (Name evt))
      as [[dirToAdd [err|]] p'].
Qed.

(** From the empty map of [Init], and after any scan, the loop only meets
    maps in which every recorded list is headed by its key. *)
Lemma eventLoop_rootFirst (callback : filesystem → World → option World)
    (received : list selected) (st st' : loopState) :
  rootFirst (watchedDirectories (provider st)) →
  eventLoop callback received st = Some st' →
  rootFirst (watchedDirectories (provider st')).
Proof.
  revert st. induction received as [|[|evt fs|err] rest IH]; intros st Hwd.
  - by intros [= <-].
  - by intros [= <-].
  - cbn [eventLoop].
    destruct (handleEvent callback fs evt st) as [st1|] eqn:Hev; [|done].
    simpl. apply IH. by eapply handleEvent_rootFirst.
  - cbn [eventLoop]. by apply IH.
Qed.

(** * Further properties of the provider *)

(** ** Directory-tree mode: the other events *)

Lemma directory_mode_length (p : Provider) :
  Directory p ≠ "" → (String.length (Directory p) =? 0)%nat = false.
Proof. intros H. apply not_true_is_false. by rewrite length_zero_iff. Qed.

(** X1: in directory-tree mode an event whose [Op] is not exactly
    [Create], [Remove] or [Rename] (a write, a chmod, or a mask with
    several bits set) changes neither the map of watched directories nor
    the watches, and the callback is called once. *)
Theorem other_event_only_reloads
    (callback : filesystem → World → option World) (fs : filesystem)
    (evt : Event) (st : loopState) :
  Directory (provider st) ≠ "" →
  Op evt ≠ fsnotify_Create → Op evt ≠ fsnotify_Remove →
  Op evt ≠ fsnotify_Rename →
  handleEvent callback fs evt st =
    (w ← callback fs (world st);
     Some (mkLoopState (provider st) (watcher st) w)).
Proof.
  intros Hdir Hc Hrm Hrn. unfold handleEvent.
  rewrite directory_mode_length by done.
  by rewrite !bool_decide_eq_false_2 by done.
Qed.

Lemma other_event_only_reloads_witness :
  handleEvent tickCallback sampleFS
    (mkEvent "/conf/b" (fsnotify_Remove + fsnotify_Write)) directoryLoop =
    (w ← tickCallback sampleFS (world directoryLoop);
     Some (mkLoopState (provider directoryLoop) (watcher directoryLoop) w)).
Proof.
  apply (other_event_only_reloads tickCallback sampleFS
           (mkEvent "/conf/b" (fsnotify_Remove + fsnotify_Write))
           directoryLoop); discriminate.
Defined.

(** ** Directory-tree mode: create events *)

(** A successful scan of a directory records its list under its path. *)
Lemma getDirectoriesOf_root (rootDir : string) listing wd dirs wd' :
  getDirectoriesOf rootDir (Dir listing) wd = ((dirs, None), wd') →
  wd' !! rootDir = Some dirs.
Proof.
  destruct listing as [fileList|]; [|done]. cbn [getDirectoriesOf].
  destruct (rangeSubDirectories _ _ _ _ _) as [[directories|err] wd1]; [|done].
  intros [= <- <-]. by rewrite lookup_insert_eq.
Qed.

Lemma loopState_eta (st : loopState) :
  mkLoopState (provider st) (watcher st) (world st) = st.
Proof. by destruct st. Qed.

(** In directory-tree mode a create event runs [onCreate] and then the
    callback. *)
Lemma handleEvent_create (callback : filesystem → World → option World)
    (fs : filesystem) (evt : Event) (st : loopState) :
  Directory (provider st) ≠ "" → Op evt = fsnotify_Create →
  handleEvent callback fs evt st =
    (w ← callback fs (world (onCreate fs evt st));
     Some (mkLoopState (provider (onCreate fs evt st))
             (watcher (onCreate fs evt st)) w)).
Proof.
  intros Hdir Hop. unfold handleEvent.
  rewrite directory_mode_length by done. by rewrite Hop.
Qed.

(** X2: in directory-tree mode, on a create event the loop scans the path
    of the event and then calls the callback once.  When the path cannot
    be statted, one error line is logged and neither the watches nor the
    map change; when it is a plain file, nothing changes at all; when it
    is a directory whose listings can all be read, a watch is added for
    the directory and for every directory below it, in the order of the
    scan, and the list is recorded under the path; when some listing
    cannot be read, no watch is added and the error is logged. *)
Theorem create_event_watches (callback : filesystem → World → option World)
    (fs : filesystem) (evt : Event) (st : loopState) :
  Directory (provider st) ≠ "" → Op evt = fsnotify_Create →
  let st1 := onCreate fs evt st in
  handleEvent callback fs evt st =
    (w ← callback fs (world st1);
     Some (mkLoopState (provider st1) (watcher st1) w))
  ∧ match fs (Name evt) with
    | None =>
        provider st1 = provider st ∧ watcher st1 = watcher st
        ∧ world st1 =
            mkWorld (channel (world st))
              (logs (world st) ++
               [ErrorUnableToGetSubDirectories (Name evt)
                  (UnableToStat (Name evt) (SysError "stat" (Name evt)))])
    | Some (File content) => st1 = st
    | Some (Dir listing) =>
        if listable (Dir listing) then
          watcher st1 =
            watcher st ++ (WatcherAdd <$> subtree (Name evt) (Dir listing))
          ∧ watchedDirectories (provider st1) !! Name evt
            = Some (subtree (Name evt) (Dir listing))
          ∧ world st1 = world st
        else
          watcher st1 = watcher st
          ∧ ∃ err,
              world st1 =
                mkWorld (channel (world st))
                  (logs (world st) ++
                   [ErrorUnableToGetSubDirectories (Name evt) err])
    end.
Proof.
  intros Hdir Hop st1. split; [by apply handleEvent_create|].
  subst st1. unfold onCreate, getDirectoriesRecursively.
  destruct (fs (Name evt)) as [[content|listing]|]; [| |done].
  - cbn [getDirectoriesOf]. rewrite set_watchedDirectories_same.
    rewrite fmap_nil, app_nil_r. apply loopState_eta.
  - destruct (listable (Dir listing)) eqn:Hlist.
    + destruct (getDirectoriesOf_records (Dir listing) (Name evt)
                  (watchedDirectories (provider st)) Hlist)
        as (wd' & Hscan & _).
      rewrite Hscan. simpl. split; [done|]. split; [|done].
      by eapply getDirectoriesOf_root.
    + destruct (getDirectoriesOf_unreadable (Dir listing) (Name evt)
                  (watchedDirectories (provider st)) Hlist)
        as (err & wd' & ->).
      simpl. split; [done|]. by exists err.
Qed.

Lemma create_event_watches_witness :
  let evt := mkEvent "/srv" fsnotify_Create in
  let st1 := onCreate deepFS evt srvLoop in
  handleEvent tickCallback deepFS evt srvLoop =
    (w ← tickCallback deepFS (world st1);
     Some (mkLoopState (provider st1) (watcher st1) w))
  ∧ watcher st1 =
      watcher srvLoop ++ (WatcherAdd <$> subtree "/srv" (Dir (Some deepListing)))
  ∧ watchedDirectories (provider st1) !! "/srv"
    = Some (subtree "/srv" (Dir (Some deepListing)))
  ∧ world st1 = world srvLoop.
Proof.
  exact (create_event_watches tickCallback deepFS
           (mkEvent "/srv" fsnotify_Create) srvLoop
           ltac:(discriminate) eq_refl).
Defined.

(** ** What a scan writes *)

(** The loop of a scan leaves the lists recorded for paths that are not
    below an entry of the listing, also when it fails. *)
Lemma rangeSubDirectories_outside (fileList : list (string * node))
    (k : string) :
  Forall (fun item =>
            ∀ rootDir wd, k ∉ subtree rootDir item.2 →
              (getDirectoriesOf rootDir item.2 wd).2 !! k = wd !! k)
    fileList →
  ∀ rootDir directories wd,
    k ∉ (directoriesOfList (fun d c => directoriesOf d c) rootDir fileList).*1 →
    (rangeSubDirectories (fun d c w => getDirectoriesOf d c w) rootDir
       fileList directories wd).2 !! k = wd !! k.
Proof.
  induction 1 as [|[name child] rest Hchild _ IH];
    intros rootDir directories wd Hk; [done|].
  cbn [rangeSubDirectories directoriesOfList fst snd] in *.
  rewrite fmap_app, not_elem_of_app in Hk. destruct Hk as [Hk1 Hk2].
  destruct (IsDir child); [|by apply IH].
  specialize (Hchild (subPath rootDir name) wd Hk1).
  destruct (getDirectoriesOf (subPath rootDir name) child wd)
    as [[subDir [err|]] wd1]; simpl in Hchild; [done|].
  by rewrite IH.
Qed.

Lemma getDirectoriesOf_outside (n : node) (k : string) :
  ∀ rootDir wd,
    k ∉ subtree rootDir n →
    (getDirectoriesOf rootDir n wd).2 !! k = wd !! k.
Proof.
  induction n as [content| |fileList IH] using node_tree_ind;
    intros rootDir wd Hk; [done..|].
  unfold subtree in Hk. cbn [directoriesOf] in Hk. rewrite fmap_cons in Hk.
  apply not_elem_of_cons in Hk as [Hne Hk].
  pose proof (rangeSubDirectories_outside fileList k IH rootDir [rootDir] wd Hk)
    as Hout.
  cbn [getDirectoriesOf].
  destruct (rangeSubDirectories _ _ _ _ _) as [[directories|err] wd1];
    simpl in *; [|done].
  by rewrite lookup_insert_ne.
Qed.

(** X3: [getDirectoriesRecursively], whether it succeeds or fails, only
    writes the map of watched directories at paths of directories of the
    tree it scans: when the root cannot be statted the provider is left as
    it is, and otherwise the list recorded for any other path is the list
    recorded before. *)
Theorem scan_writes_only_its_tree (p : Provider) (fs : filesystem)
    (rootDir : string) :
  match fs rootDir with
  | None => (getDirectoriesRecursively p fs rootDir).2 = p
  | Some n =>
      ∀ k, k ∉ subtree rootDir n →
           watchedDirectories (getDirectoriesRecursively p fs rootDir).2 !! k
           = watchedDirectories p !! k
  end.
Proof.
  unfold getDirectoriesRecursively. destruct (fs rootDir) as [n|]; [|done].
  intros k Hk.
  pose proof (getDirectoriesOf_outside n k rootDir (watchedDirectories p) Hk)
    as Hout.
  by destruct (getDirectoriesOf rootDir n (watchedDirectories p)).
Qed.

(** X4: scanning the same tree again changes nothing: after a successful
    scan of a tree a file system can hold, a second scan of it returns the
    same list and leaves the provider, with its map of watched
    directories, as the first scan left it. *)
Theorem rescan_changes_nothing (p : Provider) (fs : filesystem)
    (rootDir : string) (n : node) (dirs : list string) (p' : Provider) :
  fs rootDir = Some n → wellNamed n = true →
  getDirectoriesRecursively p fs rootDir = ((dirs, None), p') →
  getDirectoriesRecursively p' fs rootDir = ((dirs, None), p').
Proof.
  intros Hfs Hwf. unfold getDirectoriesRecursively. rewrite Hfs.
  destruct (listable n) eqn:Hlist.
  2:{ destruct (getDirectoriesOf_unreadable n rootDir (watchedDirectories p) Hlist)
        as (err & wd' & ->). done. }
  destruct (getDirectoriesOf_records n rootDir (watchedDirectories p) Hlist)
    as (wd1 & -> & Hout1 & Hin1).
  intros [= <- <-]. simpl.
  destruct (getDirectoriesOf_records n rootDir wd1 Hlist)
    as (wd2 & -> & Hout2 & Hin2).
  assert (wd2 = wd1) as ->; [|done].
  apply map_eq. intros k.
  destruct (decide (k ∈ subtree rootDir n)) as [Hk|Hk]; [|by apply Hout2].
  apply elem_of_subtree in Hk as [d Hkd].
  by rewrite (Hin1 Hwf k d Hkd), (Hin2 Hwf k d Hkd).
Qed.

Lemma rescan_changes_nothing_witness :
  getDirectoriesRecursively
    (getDirectoriesRecursively srvProvider deepFS "/srv").2 deepFS "/srv"
  = ((["/srv"; "/srv/a"; "/srv/a/b"; "/srv/a/c"], None),
     (getDirectoriesRecursively srvProvider deepFS "/srv").2).
Proof.
  apply (rescan_changes_nothing srvProvider deepFS "/srv"
           (Dir (Some deepListing))).
  - reflexivity.
  - vm_compute. reflexivity.
  - vm_compute. reflexivity.
Defined.

(** ** A directory that comes and goes *)

(** X5: a create event for a directory whose listings can be read,
    followed by a remove or rename event for the same path, leaves the map
    of watched directories as it was before the two, when none of the
    paths of the new tree was a key; the watches added for the tree are
    all removed again, in the opposite order. *)
Theorem create_then_remove_restores (fs : filesystem) (created removed : Event)
    (st : loopState) (n : node) :
  Name removed = Name created →
  fs (Name created) = Some n → IsDir n = true → listable n = true →
  (∀ k, k ∈ subtree (Name created) n →
        watchedDirectories (provider st) !! k = None) →
  let st2 := onRemoveOrRename removed (onCreate fs created st) in
  provider st2 = provider st
  ∧ watcher st2 =
      watcher st ++ (WatcherAdd <$> subtree (Name created) n)
                 ++ (WatcherRemove <$> reverse (subtree (Name created) n))
  ∧ world st2 = world st.
Proof.
  intros Hname Hfs Hdir Hlist Hfresh st2. subst st2.
  unfold onCreate, getDirectoriesRecursively. rewrite Hfs.
  destruct (getDirectoriesOf_records n (Name created)
              (watchedDirectories (provider st)) Hlist)
    as (wd' & Hscan & Hout & _).
  rewrite Hscan.
  assert (wd' !! Name created = Some (subtree (Name created) n)) as Hroot.
  { destruct n as [content|listing]; [done|].
    by eapply getDirectoriesOf_root. }
  rewrite (onRemoveOrRename_key removed _ (subtree (Name created) n))
    by by rewrite Hname.
  simpl. split; [|by rewrite <- app_assoc].
  assert (foldl (fun m d => delete d m) wd'
            (reverse (subtree (Name created) n))
          = watchedDirectories (provider st)) as ->.
  { apply map_eq. intros k. rewrite lookup_foldl_delete.
    destruct (decide (k ∈ reverse (subtree (Name created) n))) as [Hk|Hk].
    - symmetry. apply Hfresh. by apply elem_of_reverse.
    - apply Hout. by rewrite elem_of_reverse in Hk. }
  by destruct (provider st).
Qed.

Lemma create_then_remove_restores_witness :
  let st2 := onRemoveOrRename (mkEvent "/srv" fsnotify_Remove)
               (onCreate deepFS (mkEvent "/srv" fsnotify_Create) srvLoop) in
  provider st2 = provider srvLoop
  ∧ watcher st2 =
      watcher srvLoop
        ++ (WatcherAdd <$> subtree "/srv" (Dir (Some deepListing)))
        ++ (WatcherRemove <$> reverse (subtree "/srv" (Dir (Some deepListing))))
  ∧ world st2 = world srvLoop.
Proof.
  apply (create_then_remove_restores deepFS (mkEvent "/srv" fsnotify_Create)
           (mkEvent "/srv" fsnotify_Remove) srvLoop (Dir (Some deepListing)));
    reflexivity.
Defined.

(** ** The loop as a whole *)

(** A successful build returns a configuration. *)
Lemma BuildConfiguration_ok_not_nil (rt : GoRuntime) (p : Provider)
    (fs : filesystem) cfg lg :
  BuildConfiguration rt p fs = Some ((cfg, None), lg) → is_Some cfg.
Proof.
  unfold BuildConfiguration.
  destruct (0 <? String.length (Directory p))%nat.
  { intros Hload.
    destruct (loadFileConfigFromDirectory_nil rt p fs (Directory p))
      as (cfg0 & err & lg0 & Heq & Hok).
    rewrite Heq in Hload. injection Hload as -> -> ->.
    by destruct (Hok eq_refl) as (c & -> & _). }
  destruct (0 <? String.length (Filename (base p)))%nat.
  { intros [= Hload _]. by eapply loadFileConfig_ok_not_nil. }
  destruct (0 <? String.length (TraefikFile p))%nat; [|done].
  intros [= Hload _]. by eapply loadFileConfig_ok_not_nil.
Qed.

(** [watcherCallback] returns, and sends at most one message. *)
Lemma watcherCallback_sends (rt : GoRuntime) (p : Provider) (fs : filesystem)
    (w : World) :
  ∃ w' new,
    watcherCallback rt p fs w = Some w'
    ∧ channel w' = channel w ++ new
    ∧ (length new ≤ 1)%nat ∧ Forall published new.
Proof.
  unfold watcherCallback. destruct (fs (watchItem p)) as [n|].
  - destruct (BuildConfiguration_total rt p fs)
      as (cfg & [err|] & lg & Hbuild); rewrite Hbuild; simpl.
    + eexists _, []. rewrite app_nil_r. repeat split; [simpl; lia|constructor].
    + eexists _, [_]. split; [done|]. split; [done|]. split; [simpl; lia|].
      constructor; [|done]. split; [done|].
      by eapply BuildConfiguration_ok_not_nil.
  - eexists _, []. rewrite app_nil_r. repeat split; [simpl; lia|constructor].
Qed.

Lemma onRemoveOrRename_world (evt : Event) (st : loopState) :
  world (onRemoveOrRename evt st) = world st.
Proof.
  unfold onRemoveOrRename. destruct (_ !! Name evt); [|done].
  by destruct (removeSubDirectories _ _ _ _).
Qed.

Lemma onCreate_channel (fs : filesystem) (evt : Event) (st : loopState) :
  channel (world (onCreate fs evt st)) = channel (world st).
Proof.
  unfold onCreate.
  by destruct (getDirectoriesRecursively (provider st) fs (Name evt))
    as [[dirToAdd [err|]] p'].
Qed.

(** Handling one event with [watcherCallback] returns, and sends at most
    one message. *)
Lemma handleEvent_sends (rt : GoRuntime) (p : Provider) (fs : filesystem)
    (evt : Event) (st : loopState) :
  ∃ st' new,
    handleEvent (watcherCallback rt p) fs evt st = Some st'
    ∧ channel (world st') = channel (world st) ++ new
    ∧ (length new ≤ 1)%nat ∧ Forall published new.
Proof.
  unfold handleEvent.
  destruct (String.length (Directory (provider st)) =? 0)%nat.
  - destruct (bool_decide _).
    + destruct (watcherCallback_sends rt p fs (world st))
        as (w' & new & -> & Hch & Hlen & Hall).
      by eexists _, new.
    + eexists st, []. rewrite app_nil_r. repeat split; [simpl; lia|constructor].
  - match goal with |- context [watcherCallback rt p fs (world ?s)] =>
      assert (channel (world s) = channel (world st)) as Hsame;
      [|destruct (watcherCallback_sends rt p fs (world s))
          as (w' & new & -> & Hch & Hlen & Hall)] end.
    { destruct (_ || _); [by rewrite onRemoveOrRename_world|].
      destruct (bool_decide _); [apply onCreate_channel|done]. }
    eexists _, new. split; [done|]. simpl. by rewrite Hch, Hsame.
Qed.

(** The loop run with [watcherCallback] returns, and what it sends are
    messages of the provider. *)
Lemma eventLoop_sends (rt : GoRuntime) (p : Provider)
    (received : list selected) (st : loopState) :
  ∃ st' new,
    eventLoop (watcherCallback rt p) received st = Some st'
    ∧ channel (world st') = channel (world st) ++ new
    ∧ Forall published new.
Proof.
  revert st. induction received as [|[|evt fs|err] rest IH]; intros st.
  - exists st, []. rewrite app_nil_r. repeat split. constructor.
  - eexists _, []. simpl. rewrite app_nil_r. repeat split. constructor.
  - cbn [eventLoop].
    destruct (handleEvent_sends rt p fs evt st)
      as (st1 & new1 & -> & Hch1 & _ & Hall1).
    destruct (IH st1) as (st' & new & Hloop & Hch & Hall).
    exists st', (new1 ++ new). simpl. rewrite Hloop, Hch, Hch1, app_assoc.
    repeat split. by apply Forall_app.
  - cbn [eventLoop].
    destruct (IH (mkLoopState (provider st) (watcher st)
                    (mkWorld (channel (world st))
                       (logs (world st) ++ [ErrorWatcherEvent err]))))
      as (st' & new & Hloop & Hch & Hall).
    by exists st', new.
Qed.

(** X6: the loop run with [watcherCallback] never panics, whatever it
    receives.  The messages on the channel when it ends are the messages
    that were there, followed by at most one new message for each event
    received; each new message is named after the provider and carries a
    configuration, never a nil one. *)
Theorem eventLoop_publishes (rt : GoRuntime) (p : Provider)
    (received : list selected) (st : loopState) :
  ∃ st' new,
    eventLoop (watcherCallback rt p) received st = Some st'
    ∧ channel (world st') = channel (world st) ++ new
    ∧ (length new ≤ length received)%nat
    ∧ Forall published new.
Proof.
  revert st. induction received as [|[|evt fs|err] rest IH]; intros st.
  - exists st, []. rewrite app_nil_r. repeat split; [simpl; lia|constructor].
  - eexists _, []. simpl. rewrite app_nil_r. repeat split; [lia|constructor].
  - cbn [eventLoop].
    destruct (handleEvent_sends rt p fs evt st)
      as (st1 & new1 & -> & Hch1 & Hlen1 & Hall1).
    destruct (IH st1) as (st' & new & Hloop & Hch & Hlen & Hall).
    exists st', (new1 ++ new). simpl. rewrite Hloop, Hch, Hch1, app_assoc.
    repeat split; [|by apply Forall_app].
    rewrite length_app. simpl. lia.
  - cbn [eventLoop].
    destruct (IH (mkLoopState (provider st) (watcher st)
                    (mkWorld (channel (world st))
                       (logs (world st) ++ [ErrorWatcherEvent err]))))
      as (st' & new & Hloop & Hch & Hlen & Hall).
    exists st', new. rewrite Hloop. repeat split; [done| |done].
    simpl. lia.
Qed.

(** X7: an error of the watcher is logged and changes nothing else: a
    loop that receives only watcher errors ends with the provider, the
    watches and the channel it started with, and one log line for each
    error, in order; the callback is not called. *)
Theorem watcher_errors_only_logged
    (callback : filesystem → World → option World) (errs : list error)
    (st : loopState) :
  eventLoop callback (ErrorReceived <$> errs) st =
    Some (mkLoopState (provider st) (watcher st)
            (mkWorld (channel (world st))
               (logs (world st) ++ (ErrorWatcherEvent <$> errs)))).
Proof.
  revert st. induction errs as [|err errs IH]; intros st.
  - simpl. rewrite app_nil_r. by destruct st as [? ? []].
  - rewrite fmap_cons. cbn [eventLoop]. rewrite IH. simpl.
    by rewrite <- app_assoc.
Qed.

(** X8: the stop signal ends the loop: what is received after it is not
    handled, and the watcher is closed once, after everything received
    before the signal has been handled. *)
Theorem stop_ends_the_loop (callback : filesystem → World → option World)
    (before after : list selected) (st : loopState) :
  Forall (fun s => s ≠ StopReceived) before →
  eventLoop callback (before ++ StopReceived :: after) st =
    (st' ← eventLoop callback before st;
     Some (mkLoopState (provider st') (watcher st' ++ [WatcherClose])
             (world st'))).
Proof.
  intros Hbefore. revert st.
  induction Hbefore as [|[|evt fs|err] rest Hs _ IH]; intros st; try done.
  - cbn [app eventLoop].
    destruct (handleEvent callback fs evt st) as [st1|]; [|done].
    simpl. apply IH.
  - cbn [app eventLoop]. apply IH.
Qed.

Lemma stop_ends_the_loop_witness :
  eventLoop tickCallback
    ([EventReceived (mkEvent "/etc/app.toml" fsnotify_Write) sampleFS]
       ++ StopReceived
       :: [EventReceived (mkEvent "/etc/app.toml" fsnotify_Write) sampleFS])
    fileLoop =
    (st' ← eventLoop tickCallback
             [EventReceived (mkEvent "/etc/app.toml" fsnotify_Write) sampleFS]
             fileLoop;
     Some (mkLoopState (provider st') (watcher st' ++ [WatcherClose])
             (world st'))).
Proof.
  apply (stop_ends_the_loop tickCallback
           [EventReceived (mkEvent "/etc/app.toml" fsnotify_Write) sampleFS]
           [EventReceived (mkEvent "/etc/app.toml" fsnotify_Write) sampleFS]
           fileLoop).
  repeat constructor; discriminate.
Defined.

(** ** The walk: which fragment wins, what the accumulator keeps *)

(** The first fragment that defines a name gives the name its entry. *)
Lemma unionAll_first field acc (pre post : list Configuration) f name b :
  acc !! name = None →
  Forall (fun g => field g ≫= (.!! name) = None) pre →
  field f ≫= (.!! name) = Some b →
  unionAll field acc (pre ++ f :: post) !! name = Some b.
Proof.
  intros Hacc Hpre Hf. revert acc Hacc.
  induction Hpre as [|g pre Hg _ IH]; intros acc Hacc.
  - change (unionAll field (mergedWith acc (field f)) post !! name = Some b).
    apply unionAll_keeps. by rewrite mergedWith_lookup, Hacc.
  - change (unionAll field (mergedWith acc (field g)) (pre ++ f :: post)
              !! name = Some b).
    apply IH. by rewrite mergedWith_lookup, Hacc.
Qed.

(** X9: across the whole tree the first fragment in traversal order wins:
    when a name is defined by a fragment the walk loads and by none loaded
    before it, the configuration returned has that fragment's entry for
    the name, whatever later fragments give it, and also when the walk
    fails later. *)
Theorem first_fragment_wins (rt : GoRuntime) (p : Provider) (fs : filesystem)
    (directory : string) (fileList : list (string * node))
    (pre post : list Configuration) (f : Configuration) :
  fs directory = Some (Dir (Some fileList)) →
  omap fragmentOf
    (beforeFailure (visits rt p directory (Dir (Some fileList))))
    = pre ++ f :: post →
  ∃ cfg err lg,
    loadFileConfigFromDirectory rt p fs directory None =
      Some ((Some cfg, err), lg)
    ∧ (∀ name b,
         Forall (fun g => Backends g ≫= (.!! name) = None) pre →
         Backends f ≫= (.!! name) = Some b →
         Backends cfg ≫= (.!! name) = Some b)
    ∧ (∀ name b,
         Forall (fun g => Frontends g ≫= (.!! name) = None) pre →
         Frontends f ≫= (.!! name) = Some b →
         Frontends cfg ≫= (.!! name) = Some b).
Proof.
  intros Hfs Hfrags. unfold loadFileConfigFromDirectory. rewrite Hfs.
  destruct (loadDirectoryOf_nil rt p directory fileList)
    as (cfg & err & lg & -> & HB & HF & _).
  rewrite mergedAfter_fragments, Hfrags in HB, HF.
  exists cfg, err, lg. split; [done|]. rewrite HB, HF. split.
  - intros name b Hpre Hf. by apply unionAll_first.
  - intros name b Hpre Hf. by apply unionAll_first.
Qed.

Lemma first_fragment_wins_witness :
  ∃ cfg err lg,
    loadFileConfigFromDirectory sampleRuntime directoryProvider collisionFS
      "/conf" None = Some ((Some cfg, err), lg)
    ∧ (∀ name b,
         Forall (fun g => Backends g ≫= (.!! name) = None) [] →
         Backends (mkConfiguration (Some {[ "X" := 1%N ]}) None None)
           ≫= (.!! name) = Some b →
         Backends cfg ≫= (.!! name) = Some b)
    ∧ (∀ name b,
         Forall (fun g => Frontends g ≫= (.!! name) = None) [] →
         Frontends (mkConfiguration (Some {[ "X" := 1%N ]}) None None)
           ≫= (.!! name) = Some b →
         Frontends cfg ≫= (.!! name) = Some b).
Proof.
  apply (first_fragment_wins sampleRuntime directoryProvider collisionFS
           "/conf" collisionListing []
           [ mkConfiguration (Some {[ "Y" := 2%N ]}) (Some {[ "web" := 3%N ]})
               None;
             mkConfiguration (Some {[ "X" := 4%N ]}) None None ]).
  - reflexivity.
  - vm_compute. reflexivity.
Defined.

(** The backend [X] defined twice below [/conf] keeps the address the
    first file gives it, and one warning is logged. *)
Example collision_tree_result :
  ∃ cfg,
    loadFileConfigFromDirectory sampleRuntime directoryProvider collisionFS
      "/conf" None =
      Some ((Some cfg, None), [WarnBackendAlreadyConfigured "X"])
    ∧ Backends cfg = Some {[ "X" := 1%N; "Y" := 2%N ]}.
Proof. eexists. split; vm_compute; reflexivity. Qed.

(** X10: [loadFileConfigFromDirectory] called with an accumulator whose
    maps are not nil never panics and never replaces or removes an entry
    of the accumulator: every backend and every frontend the accumulator
    has is in the configuration returned, with the same address, whether
    the walk succeeds or fails. *)
Theorem accumulator_entries_kept (rt : GoRuntime) (p : Provider)
    (fs : filesystem) (directory : string) (cfg : Configuration)
    (B F : gmap string ptr) :
  Backends cfg = Some B → Frontends cfg = Some F →
  ∃ cfg' err lg,
    loadFileConfigFromDirectory rt p fs directory (Some cfg) =
      Some ((Some cfg', err), lg)
    ∧ (∀ name b, B !! name = Some b → Backends cfg' ≫= (.!! name) = Some b)
    ∧ (∀ name f, F !! name = Some f → Frontends cfg' ≫= (.!! name) = Some f).
Proof.
  intros HB HF. unfold loadFileConfigFromDirectory.
  destruct (fs directory) as [n|].
  - destruct (loadDirectoryOf_walk rt p n directory cfg B F HB HF)
      as (cfg' & err & lg & -> & HB' & HF' & _).
    exists cfg', err, lg. split; [done|]. rewrite HB', HF'.
    rewrite !mergedAfter_fragments. split.
    + intros name b Hb. by apply unionAll_keeps.
    + intros name f Hf. by apply unionAll_keeps.
  - eexists cfg, _, []. split; [done|]. rewrite HB, HF. by split.
Qed.

Lemma accumulator_entries_kept_witness :
  ∃ cfg' err lg,
    loadFileConfigFromDirectory sampleRuntime directoryProvider collisionFS
      "/conf" (Some (mkConfiguration (Some {[ "X" := 9%N ]}) (Some ∅) None)) =
      Some ((Some cfg', err), lg)
    ∧ (∀ name b,
         ({[ "X" := 9%N ]} : gmap string N) !! name = Some b →
         Backends cfg' ≫= (.!! name) = Some b)
    ∧ (∀ name f,
         (∅ : gmap string N) !! name = Some f →
         Frontends cfg' ≫= (.!! name) = Some f).
Proof.
  apply (accumulator_entries_kept sampleRuntime directoryProvider collisionFS
           "/conf" (mkConfiguration (Some {[ "X" := 9%N ]}) (Some ∅) None));
    reflexivity.
Defined.

(** ** The walk: what it does not read *)

Lemma IsDir_prune (n : node) : IsDir (prune n) = IsDir n.
Proof. by destruct n as [|[|]]. Qed.

Lemma rangeFileList_prune (rt : GoRuntime) (p : Provider)
    (fileList : list (string * node)) :
  Forall (fun item =>
            ∀ directory configuration,
              loadDirectoryOf rt p directory (prune item.2) configuration
              = loadDirectoryOf rt p directory item.2 configuration)
    fileList →
  ∀ directory configuration configTLSMaps lg,
    rangeFileList (fun d c a => loadDirectoryOf rt p d c a) rt p directory
      (pruneList (fun c => prune c) fileList) configuration configTLSMaps lg
    = rangeFileList (fun d c a => loadDirectoryOf rt p d c a) rt p directory
        fileList configuration configTLSMaps lg.
Proof.
  induction 1 as [|[name child] rest Hchild _ IH];
    intros directory configuration configTLSMaps lg; [done|].
  cbn [pruneList rangeFileList fst snd] in *.
  destruct (IsDir child) eqn:Hdir.
  - cbn [rangeFileList fst snd]. rewrite IsDir_prune, Hdir, Hchild.
    destruct (loadDirectoryOf rt p _ child configuration) as [[[c [e|]] l]|];
      simpl; [done| |done].
    apply IH.
  - unfold recognised.
    destruct (strings_HasSuffix name ".toml") eqn:Htoml,
             (strings_HasSuffix name ".tmpl") eqn:Htmpl;
      cbn [negb andb orb rangeFileList fst snd];
      rewrite ?Hdir, ?Htoml, ?Htmpl; cbn [negb andb orb]; try apply IH.
    all: destruct (loadFileConfig p _ (Some child) true) as [c [e|]]; [done|].
    all: destruct (mergeFragment rt c configuration configTLSMaps lg)
           as [m|]; [|done]; simpl; apply IH.
Qed.

Lemma loadDirectoryOf_prune (rt : GoRuntime) (p : Provider) (n : node) :
  ∀ directory configuration,
    loadDirectoryOf rt p directory (prune n) configuration
    = loadDirectoryOf rt p directory n configuration.
Proof.
  induction n as [content| |fileList IH] using node_tree_ind;
    intros directory configuration; [done..|].
  cbn [prune loadDirectoryOf]. by rewrite rangeFileList_prune.
Qed.

(** X11: files whose name ends neither in [.toml] nor in [.tmpl] are
    never read: with all of them taken out of the tree, at every depth,
    [loadFileConfigFromDirectory] returns the same configuration and error
    and logs the same lines. *)
Theorem unrecognised_files_ignored (rt : GoRuntime) (p : Provider)
    (fs : filesystem) (directory : string)
    (configuration : option Configuration) :
  loadFileConfigFromDirectory rt p (fun path => prune <$> fs path) directory
    configuration
  = loadFileConfigFromDirectory rt p fs directory configuration.
Proof.
  unfold loadFileConfigFromDirectory.
  destruct (fs directory) as [n|]; [|done]. apply loadDirectoryOf_prune.
Qed.

(** The pruned sample tree has lost [notes.bak]. *)
Example prune_sampleTree :
  prune sampleTree =
    Dir (Some [ ("a.toml", File (Some "backend X"));
                ("b", Dir (Some [ ("b.toml",
                                   File (Some "backend Y frontend web")) ])) ]).
Proof. reflexivity. Qed.

(** ** The walk: what of the provider it uses *)

Lemma loadFileConfig_template (p p' : Provider) filename found :
  CreateConfiguration (base p) = CreateConfiguration (base p') →
  loadFileConfig p filename found true = loadFileConfig p' filename found true.
Proof. intros Heq. unfold loadFileConfig. by rewrite Heq. Qed.

Lemma rangeFileList_template (rt : GoRuntime) (p p' : Provider)
    (fileList : list (string * node)) :
  CreateConfiguration (base p) = CreateConfiguration (base p') →
  Forall (fun item =>
            ∀ directory configuration,
              loadDirectoryOf rt p directory item.2 configuration
              = loadDirectoryOf rt p' directory item.2 configuration)
    fileList →
  ∀ directory configuration configTLSMaps lg,
    rangeFileList (fun d c a => loadDirectoryOf rt p d c a) rt p directory
      fileList configuration configTLSMaps lg
    = rangeFileList (fun d c a => loadDirectoryOf rt p' d c a) rt p' directory
        fileList configuration configTLSMaps lg.
Proof.
  intros Heq. induction 1 as [|[name child] rest Hchild _ IH];
    intros directory configuration configTLSMaps lg; [done|].
  cbn [rangeFileList fst snd] in *.
  rewrite Hchild, (loadFileConfig_template p p') by done.
  destruct (IsDir child).
  - destruct (loadDirectoryOf rt p' _ child configuration) as [[[c [e|]] l]|];
      simpl; [done| |done].
    apply IH.
  - destruct (negb _ && negb _); [apply IH|].
    destruct (loadFileConfig p' _ (Some child) true) as [c [e|]]; [done|].
    destruct (mergeFragment rt c configuration configTLSMaps lg) as [m|];
      [|done].
    simpl. apply IH.
Qed.

Lemma loadDirectoryOf_template (rt : GoRuntime) (p p' : Provider) (n : node) :
  CreateConfiguration (base p) = CreateConfiguration (base p') →
  ∀ directory configuration,
    loadDirectoryOf rt p directory n configuration
    = loadDirectoryOf rt p' directory n configuration.
Proof.
  intros Heq.
  induction n as [content| |fileList IH] using node_tree_ind;
    intros directory configuration; [done..|].
  cbn [loadDirectoryOf]. by rewrite (rangeFileList_template rt p p').
Qed.

(** X12: a build in directory mode uses the provider's [Directory] and
    its templating decoder [CreateConfiguration] and nothing else of it:
    two providers with the same directory and the same templating decoder
    build the same configuration, whatever their [Filename], fallback
    file, raw decoder [DecodeConfiguration], [Watch] flag and map of
    watched directories. *)
Theorem directory_build_uses_template_decoder (rt : GoRuntime)
    (p p' : Provider) (fs : filesystem) :
  Directory p ≠ "" → Directory p' = Directory p →
  CreateConfiguration (base p) = CreateConfiguration (base p') →
  BuildConfiguration rt p fs = BuildConfiguration rt p' fs.
Proof.
  intros Hdir Hsame Heq. unfold BuildConfiguration. rewrite Hsame.
  apply length_pos_iff in Hdir. rewrite Hdir.
  unfold loadFileConfigFromDirectory.
  destruct (fs (Directory p)) as [n|]; [|done].
  by apply loadDirectoryOf_template.
Qed.

Lemma directory_build_uses_template_decoder_witness :
  BuildConfiguration sampleRuntime directoryProvider sampleFS
  = BuildConfiguration sampleRuntime otherDirectoryProvider sampleFS.
Proof.
  apply (directory_build_uses_template_decoder sampleRuntime
           directoryProvider otherDirectoryProvider sampleFS).
  - discriminate.
  - reflexivity.
  - reflexivity.
Defined.

(** ** Base names and suffixes *)

Lemma substring_0_0 (s : string) : String.substring 0 0 s = "".
Proof. by destruct s. Qed.

Lemma substring_all (s : string) : String.substring 0 (String.length s) s = s.
Proof. induction s as [|c s IH]; [done|]. simpl. by rewrite IH. Qed.

Lemma substring_0_append (a b : string) :
  String.substring 0 (String.length a) (a +:+ b) = a.
Proof.
  induction a as [|c a IH]; [apply substring_0_0|].
  rewrite append_cons. simpl. by rewrite IH.
Qed.

Lemma substring_append_r (a b : string) :
  String.substring (String.length a) (String.length b) (a +:+ b) = b.
Proof.
  induction a as [|c a IH]; [apply substring_all|].
  rewrite append_cons. exact IH.
Qed.




Lemma get_append_r (a b : string) (j : nat) :
  String.get (String.length a + j) (a +:+ b) = String.get j b.
Proof. induction a as [|c a IH]; [done|]. rewrite append_cons. exact IH. Qed.

Lemma get_noSlash (name : string) (j : nat) (c : ascii) :
  noSlash name = true → String.get j name = Some c → c ≠ "/"%char.
Proof.
  revert j. induction name as [|x name IH]; intros j Hns Hget; [done|].
  simpl in Hns. apply andb_true_iff in Hns as [Hx Hns].
  apply negb_true_iff, bool_decide_eq_false in Hx.
  destruct j as [|j]; simpl in Hget; [by injection Hget as <-|].
  by eapply IH.
Qed.

Lemma get_None_ge (s : string) (j : nat) :
  (String.length s ≤ j)%nat → String.get j s = None.
Proof.
  revert j. induction s as [|c s IH]; intros j Hj; [by destruct j|].
  destruct j as [|j]; simpl in *; [lia|]. apply IH. lia.
Qed.

(** The scan of [filepath.Split] through a base name stops where the
    directory part ends. *)
Lemma split_index_base (P name : string) (k : nat) :
  dirPart P → noSlash name = true →
  split_index (P +:+ name) (String.length P + k) = String.length P.
Proof.
  intros HP Hns. induction k as [|k IH].
  - rewrite Nat.add_0_r. destruct HP as [->|[d ->]]; [done|].
    rewrite length_append. simpl. rewrite Nat.add_1_r. simpl.
    rewrite append_assoc.
    rewrite <- (Nat.add_0_r (String.length d)), get_append_r. simpl.
    reflexivity.
  - rewrite Nat.add_succ_r. simpl. rewrite get_append_r.
    destruct (String.get k name) as [c|] eqn:Hget; [|exact IH].
    rewrite bool_decide_eq_false_2; [exact IH|]. by eapply get_noSlash.
Qed.

(** [filepath.Split] of a directory part followed by a base name. *)
Lemma filepath_Split_base (P name : string) :
  dirPart P → noSlash name = true →
  filepath_Split (P +:+ name) = (P, name).
Proof.
  intros HP Hns. unfold filepath_Split.
  rewrite length_append, split_index_base by done.
  rewrite substring_0_append.
  replace (String.length P + String.length name - String.length P)%nat
    with (String.length name) by lia.
  by rewrite substring_append_r.
Qed.

(** X14: in single-target mode only base names are compared: an event
    for a file with the base name of the tracked file calls the callback
    once, in whatever directory the file is, and an event for any other
    base name is ignored. *)
Theorem base_names_decide (callback : filesystem → World → option World)
    (fs : filesystem) (evt : Event) (st : loopState)
    (P1 name1 P2 name2 : string) :
  Directory (provider st) = "" →
  dirPart P1 → noSlash name1 = true → Name evt = P1 +:+ name1 →
  dirPart P2 → noSlash name2 = true →
  trackedFile (provider st) = P2 +:+ name2 →
  handleEvent callback fs evt st =
    if bool_decide (name1 = name2) then
      w ← callback fs (world st);
      Some (mkLoopState (provider st) (watcher st) w)
    else Some st.
Proof.
  intros Hdir HP1 Hn1 Hevt HP2 Hn2 Htracked.
  unfold handleEvent. apply length_zero_iff in Hdir. rewrite Hdir.
  fold (trackedFile (provider st)). rewrite Hevt, Htracked.
  by rewrite !filepath_Split_base.
Qed.

Lemma base_names_decide_witness :
  handleEvent tickCallback sampleFS (mkEvent "/tmp/x/app.toml" fsnotify_Write)
    fileLoop =
    if bool_decide ("app.toml" = "app.toml") then
      w ← tickCallback sampleFS (world fileLoop);
      Some (mkLoopState (provider fileLoop) (watcher fileLoop) w)
    else Some fileLoop.
Proof.
  apply (base_names_decide tickCallback sampleFS
           (mkEvent "/tmp/x/app.toml" fsnotify_Write) fileLoop
           "/tmp/x/" "app.toml" "/etc/" "app.toml"); try reflexivity.
  - right. by exists "/tmp/x".
  - right. by exists "/etc".
Defined.

(** ** addWatcher: adding the watches *)

Lemma addWatcher_setup (addError : string → option error)
    (directories : list string) (st : loopState) :
  foldl (fun st dir =>
           mkLoopState (provider st) (watcher st ++ [WatcherAdd dir])
             (match addError dir with
              | Some err =>
                  mkWorld (channel (world st))
                    (logs (world st) ++ [ErrorUnableToAddWatcher dir err])
              | None => world st
              end)) st directories
  = mkLoopState (provider st) (watcher st ++ (WatcherAdd <$> directories))
      (mkWorld (channel (world st))
         (logs (world st)
            ++ omap (fun dir => ErrorUnableToAddWatcher dir <$> addError dir)
                 directories)).
Proof.
  revert st. induction directories as [|dir directories IH]; intros st.
  - simpl. rewrite !app_nil_r. by destruct st as [? ? []].
  - cbn [foldl]. rewrite IH. simpl. rewrite <- app_assoc. f_equal.
    destruct (addError dir) as [err|]; simpl; [|done].
    by rewrite <- app_assoc.
Qed.

(** X15: when the watcher is created, [addWatcher] asks for a watch on
    every directory it is given, in order, also after a watch could not
    be added: each failure is logged, once, and none ends the
    registration; the loop then starts from that state.  When the watcher
    cannot be created, [addWatcher] returns the error, adds no watch and
    starts no loop. *)
Theorem addWatcher_adds_every_directory (newWatcherError : option error)
    (addError : string → option error) (p : Provider)
    (directories : list string) (w : World)
    (callback : filesystem → World → option World)
    (received : list selected) :
  addWatcher newWatcherError addError p directories w callback received =
    match newWatcherError with
    | Some err =>
        (Some (ErrorCreatingWatcher err), Some (mkLoopState p [] w))
    | None =>
        (None,
         eventLoop callback received
           (mkLoopState p (WatcherAdd <$> directories)
              (mkWorld (channel w)
                 (logs w
                    ++ omap (fun dir =>
                               ErrorUnableToAddWatcher dir <$> addError dir)
                         directories))))
    end.
Proof.
  unfold addWatcher. destruct newWatcherError as [err|]; [done|].
  by rewrite addWatcher_setup.
Qed.

(** Watches are asked for [/conf] and [/conf/b]; the first cannot be
    added, which is logged, and the second is asked for all the same. *)
Example addWatcher_one_failure :
  addWatcher None
    (fun dir => if bool_decide (dir = "/conf")
                then Some (SysError "inotify_add_watch" dir) else None)
    directoryProvider ["/conf"; "/conf/b"] (mkWorld [] []) tickCallback [] =
    (None,
     Some (mkLoopState directoryProvider
             [WatcherAdd "/conf"; WatcherAdd "/conf/b"]
             (mkWorld []
                [ErrorUnableToAddWatcher "/conf"
                   (SysError "inotify_add_watch" "/conf")]))).
Proof. reflexivity. Qed.

(** ** Provide *)

(** X16: [Provide] never panics, and when it returns an error it has sent
    nothing on the channel and no watch was asked for: this holds when the
    first build fails, when the scan of the directory fails, and when the
    watcher cannot be created, although the build had succeeded by
    then. *)
Theorem Provide_error_sends_nothing (rt : GoRuntime)
    (filepath_Dir : string → string) (newWatcherError : option error)
    (addError : string → option error) (p : Provider) (fs : filesystem)
    (w : World) (received : list selected) :
  ∃ err st,
    Provide rt filepath_Dir newWatcherError addError p fs w received
      = Some (err, st)
    ∧ (is_Some err → channel (world st) = channel w ∧ watcher st = []).
Proof.
  unfold Provide.
  destruct (BuildConfiguration_total rt p fs) as (cfg & [e|] & lg & ->); simpl.
  { eexists _, _. split; [done|]. by intros _. }
  destruct (Watch (base p)).
  2:{ eexists _, _. split; [done|]. by intros [? [=]]. }
  destruct (directoriesToWatch filepath_Dir p fs) as [[directories|e] p'].
  2:{ eexists _, _. split; [done|]. by intros _. }
  unfold addWatcher. destruct newWatcherError as [e|]; simpl.
  { eexists _, _. split; [done|]. by intros _. }
  destruct (eventLoop_sends rt p' received
              (foldl (fun st dir =>
                        mkLoopState (provider st) (watcher st ++ [WatcherAdd dir])
                          (match addError dir with
                           | Some err =>
                               mkWorld (channel (world st))
                                 (logs (world st)
                                    ++ [ErrorUnableToAddWatcher dir err])
                           | None => world st
                           end))
                 (mkLoopState p' [] (mkWorld (channel w) (logs w ++ lg)))
                 directories))
    as (st' & new & -> & _).
  simpl. eexists _, _. split; [done|]. by intros [? [=]].
Qed.

(** The watcher cannot be created: the tree of [/srv] was built and
    scanned, and still nothing is sent. *)
Example Provide_no_watcher :
  ∃ st,
    Provide sampleRuntime sampleDir (Some (SysError "inotify_init" ""))
      (fun _ => None) srvProvider deepFS (mkWorld [] []) [] =
      Some (Some (Returned (ErrorCreatingWatcher (SysError "inotify_init" ""))),
            st)
    ∧ channel (world st) = [] ∧ watcher st = []
    ∧ dom (watchedDirectories (provider st))
      = {[ "/srv"; "/srv/a"; "/srv/a/b"; "/srv/a/c" ]}.
Proof. eexists. split; [vm_compute; reflexivity|]. repeat split. Qed.

(** X17: when [Provide] returns no error, the first build succeeded and
    its configuration, which is not nil, is the message [Provide] sent;
    before it on the channel are the messages that were there and the
    messages the goroutine sent meanwhile, all of them messages of the
    provider.  Without [Watch] no goroutine runs: the message is the only
    one sent, no watch is asked for and the provider is unchanged. *)
Theorem Provide_sends_first_build (rt : GoRuntime)
    (filepath_Dir : string → string) (newWatcherError : option error)
    (addError : string → option error) (p : Provider) (fs : filesystem)
    (w : World) (received : list selected) (st : loopState) :
  Provide rt filepath_Dir newWatcherError addError p fs w received
    = Some (None, st) →
  ∃ cfg lg sent,
    BuildConfiguration rt p fs = Some ((Some cfg, None), lg)
    ∧ channel (world st)
      = channel w ++ sent ++ [mkConfigMessage "file" (Some cfg)]
    ∧ Forall published sent
    ∧ (Watch (base p) = false →
       sent = [] ∧ watcher st = [] ∧ provider st = p).
Proof.
  unfold Provide.
  destruct (BuildConfiguration_total rt p fs) as (cfg & [e|] & lg & Hbuild);
    rewrite Hbuild; simpl; [done|].
  destruct (BuildConfiguration_ok_not_nil _ _ _ _ _ Hbuild) as [c ->].
  destruct (Watch (base p)).
  2:{ intros [= <-]. exists c, lg, []. simpl.
      repeat split; constructor. }
  destruct (directoriesToWatch filepath_Dir p fs) as [[directories|e] p'];
    [|done].
  unfold addWatcher. destruct newWatcherError as [e|]; [done|].
  rewrite addWatcher_setup.
  match goal with |- context [eventLoop _ _ ?s] =>
    destruct (eventLoop_sends rt p' received s)
      as (st' & new & -> & Hch & Hall) end.
  simpl. intros [= <-]. exists c, lg, new. simpl.
  rewrite Hch. simpl. unfold sendConfigToChannel.
  rewrite <- app_assoc. by repeat split.
Qed.

Lemma Provide_sends_first_build_witness :
  let st := (default (None, fileLoop)
               (Provide sampleRuntime sampleDir None (fun _ => None)
                  quietProvider sampleFS (mkWorld [] []) [])).2 in
  ∃ cfg lg sent,
    BuildConfiguration sampleRuntime quietProvider sampleFS
      = Some ((Some cfg, None), lg)
    ∧ channel (world st)
      = channel (mkWorld [] []) ++ sent ++ [mkConfigMessage "file" (Some cfg)]
    ∧ Forall published sent
    ∧ (Watch (base quietProvider) = false →
       sent = [] ∧ watcher st = [] ∧ provider st = quietProvider).
Proof.
  intros st.
  apply (Provide_sends_first_build sampleRuntime sampleDir None (fun _ => None)
           quietProvider sampleFS (mkWorld [] []) [] st).
  vm_compute. reflexivity.
Defined.

(** ** loadFileConfig: errors *)

(** X18: when [loadFileConfig] returns an error it returns no
    configuration, also when the decoder returned one beside its error.
    The error is the error of the decoder as it is, or, when the file
    could not be read or the file name is empty, that error wrapped in
    "error reading configuration file". *)
Theorem loadFileConfig_error_no_configuration (p : Provider)
    (filename : string) (found : option node) (parseTemplate : bool)
    (cfg : option Configuration) (err : error) :
  loadFileConfig p filename found parseTemplate = (cfg, Some err) →
  cfg = None
  ∧ ((∃ e, readFile filename found = ("", Some e)
           ∧ err = ErrorReadingConfigurationFile filename e
           ∧ (filename = "" → e = InvalidFilename filename))
     ∨ (∃ content r,
          readFile filename found = (content, None)
          ∧ decode p parseTemplate content = (r, Some err))).
Proof.
  unfold loadFileConfig, decode.
  destruct (readFile filename found) as [content [e|]] eqn:Hread.
  - intros [= <- <-]. split; [done|]. left. exists e.
    unfold readFile in Hread.
    destruct (0 <? String.length filename)%nat eqn:Hlen.
    + destruct (ioutil_ReadFile filename found) as [buf [e'|]]; [|done].
      injection Hread as <- <-. split; [done|]. split; [done|].
      intros ->. done.
    + injection Hread as <- <-. done.
  - destruct (if parseTemplate then _ else _) as [r [e|]] eqn:Hdec.
    + intros [= <- <-]. split; [done|]. right. by exists content, r.
    + by destruct (nilOrAllAbsent r).
Qed.

Lemma loadFileConfig_error_no_configuration_witness :
  (None : option Configuration) = None
  ∧ ((∃ e, readFile "/etc/app.toml" (Some (File (Some "x"))) = ("", Some e)
           ∧ DecodeError "x" = ErrorReadingConfigurationFile "/etc/app.toml" e
           ∧ ("/etc/app.toml" = "" → e = InvalidFilename "/etc/app.toml"))
     ∨ (∃ content r,
          readFile "/etc/app.toml" (Some (File (Some "x"))) = (content, None)
          ∧ decode halfProvider true content = (r, Some (DecodeError "x")))).
Proof.
  apply (loadFileConfig_error_no_configuration halfProvider "/etc/app.toml"
           (Some (File (Some "x"))) true None (DecodeError "x")).
  reflexivity.
Defined.

(** ** The TLS sequence *)

Local Set Warnings "-clear-no-such-hyp".









(** Address 7 occurs six times in three files: it is kept once for the
    subdirectory and once for [/conf], and warned about four times. *)
Example tls_tree_result :
  ∃ cfg,
    loadFileConfigFromDirectory sampleRuntime directoryProvider tlsFS
      "/conf" None =
      Some ((Some cfg, None),
            [WarnTLSAlreadyConfigured 7%N; WarnTLSAlreadyConfigured 7%N;
             WarnTLSAlreadyConfigured 7%N; WarnTLSAlreadyConfigured 7%N])
    ∧ TLS cfg = Some [7%N; 7%N].
Proof. eexists. split; vm_compute; reflexivity. Qed.

(** ** A directory created after the scan *)

(** X20: a create event records the new directory under its own path and
    does not touch the list recorded for any directory above it.  So when
    a directory that was scanned before is removed afterwards, and its
    list does not name the new directory, the new directory keeps its key
    and no removal of its watch is asked for. *)
Theorem late_directory_stays_watched (fs : filesystem)
    (created removed : Event) (st : loopState) (n : node) (l : list string) :
  fs (Name created) = Some n → IsDir n = true → listable n = true →
  watchedDirectories (provider st) !! Name removed = Some l →
  Name created ∉ l → Name removed ∉ subtree (Name created) n →
  let st1 := onCreate fs created st in
  let st2 := onRemoveOrRename removed st1 in
  watchedDirectories (provider st1) !! Name removed = Some l
  ∧ watchedDirectories (provider st2) !! Name created
    = Some (subtree (Name created) n)
  ∧ watcher st2 =
      watcher st ++ (WatcherAdd <$> subtree (Name created) n)
                 ++ (WatcherRemove <$> reverse l)
  ∧ WatcherRemove (Name created) ∉ (WatcherRemove <$> reverse l).
Proof.
  intros Hfs Hdir Hlist Hkey Hnew Hout st1 st2. subst st2 st1.
  unfold onCreate, getDirectoriesRecursively. rewrite Hfs.
  destruct (getDirectoriesOf_records n (Name created)
              (watchedDirectories (provider st)) Hlist)
    as (wd' & Hscan & Hother & _).
  rewrite Hscan.
  assert (wd' !! Name created = Some (subtree (Name created) n)) as Hroot.
  { destruct n as [content|listing]; [done|].
    by eapply getDirectoriesOf_root. }
  assert (wd' !! Name removed = Some l) as Hkey'.
  { by rewrite Hother. }
  split; [exact Hkey'|].
  rewrite (onRemoveOrRename_key removed _ l) by exact Hkey'.
  simpl. split; [|split].
  - rewrite lookup_foldl_delete, decide_False; [done|].
    by rewrite elem_of_reverse.
  - by rewrite <- app_assoc.
  - intros (k & Heq & Hk)%list_elem_of_fmap. injection Heq as Heq.
    apply Hnew. rewrite Heq. by apply elem_of_reverse.
Qed.

Lemma late_directory_stays_watched_witness :
  let created := mkEvent "/srv/new" fsnotify_Create in
  let removed := mkEvent "/srv" fsnotify_Remove in
  let l := ["/srv"; "/srv/a"; "/srv/a/b"; "/srv/a/c"] in
  let st1 := onCreate newDirFS created scannedLoop in
  let st2 := onRemoveOrRename removed st1 in
  watchedDirectories (provider st1) !! Name removed = Some l
  ∧ watchedDirectories (provider st2) !! Name created
    = Some (subtree (Name created) (Dir (Some [])))
  ∧ watcher st2 =
      watcher scannedLoop
        ++ (WatcherAdd <$> subtree (Name created) (Dir (Some [])))
        ++ (WatcherRemove <$> reverse l)
  ∧ WatcherRemove (Name created) ∉ (WatcherRemove <$> reverse l).
Proof.
  apply (late_directory_stays_watched newDirFS
           (mkEvent "/srv/new" fsnotify_Create)
           (mkEvent "/srv" fsnotify_Remove) scannedLoop (Dir (Some []))
           ["/srv"; "/srv/a"; "/srv/a/b"; "/srv/a/c"]);
    try reflexivity.
  - apply (bool_decide_unpack _). vm_compute. exact I.
  - apply (bool_decide_unpack _). vm_compute. exact I.
Defined.

(** After [/srv/new] has appeared and [/srv] has gone, [/srv/new] is the
    one key left. *)
Example late_directory_result :
  dom (watchedDirectories
         (provider
            (onRemoveOrRename (mkEvent "/srv" fsnotify_Remove)
               (onCreate newDirFS (mkEvent "/srv/new" fsnotify_Create)
                  scannedLoop))))
  = {[ "/srv/new" ]}.
Proof. vm_compute. reflexivity. Qed.

(** ** The map of watched directories, throughout *)

(** X21: from the empty map of [Init], after the first scan and after
    every event the loop handles, whatever the callback does, every list
    recorded in the map of watched directories starts with the path it is
    recorded under; this is what makes a remove event delete the key it
    is for. *)
Theorem recorded_lists_start_with_key
    (callback : filesystem → World → option World) (p : Provider)
    (fs : filesystem) (rootDir : string) (calls : list watcherCall)
    (w : World) (received : list selected) (st' : loopState) :
  eventLoop callback received
    (mkLoopState (getDirectoriesRecursively (Init p) fs rootDir).2 calls w)
    = Some st' →
  rootFirst (watchedDirectories (provider st')).
Proof.
  intros Hloop. eapply eventLoop_rootFirst; [|exact Hloop]. simpl.
  apply getDirectoriesRecursively_rootFirst, rootFirst_empty.
Qed.

Lemma recorded_lists_start_with_key_witness :
  rootFirst
    (watchedDirectories
       (provider
          (onRemoveOrRename (mkEvent "/srv/a" fsnotify_Rename)
             (mkLoopState
                (getDirectoriesRecursively (Init srvProvider) deepFS "/srv").2
                [] (mkWorld [] []))))).
Proof.
  apply (recorded_lists_start_with_key tickCallback srvProvider deepFS "/srv"
           [] (mkWorld [] [])
           [EventReceived (mkEvent "/srv/a" fsnotify_Rename) deepFS]
           (mkLoopState
              (provider
                 (onRemoveOrRename (mkEvent "/srv/a" fsnotify_Rename)
                    (mkLoopState
                       (getDirectoriesRecursively (Init srvProvider) deepFS
                          "/srv").2 [] (mkWorld [] []))))
              (watcher
                 (onRemoveOrRename (mkEvent "/srv/a" fsnotify_Rename)
                    (mkLoopState
                       (getDirectoriesRecursively (Init srvProvider) deepFS
                          "/srv").2 [] (mkWorld [] []))))
              (mkWorld [mkConfigMessage "tick" None] []))).
  vm_compute. reflexivity.
Defined.
